(** * The mod launcher's persistence layer (src/app.py), embedded in Rocq

    The DB layer of [app.py] is a handful of functions, each running one SQL
    statement (or, for [db_init], a short sequence of them) against the
    SQLite table [mods].  The embedding follows that:

    - Python [str] values and SQLite TEXT values are sequences of Unicode
      code points ([text]).  SQLite stores TEXT as UTF-8; comparing UTF-8
      with [memcmp] (the BINARY collation) is comparing code points
      lexicographically, and SQLite's [LOWER], [LIKE], [TRIM] and NOCASE
      treat only characters below U+0080 specially, so the functions of
      SQLite are written on code points, with the length in UTF-8 bytes
      where SQLite counts bytes.
    - Python [int] values are integers ([Z]).  A writing function raises
      when [sqlite3] cannot bind one of its parameters (an [int] outside 64
      bits, a [str] with a lone surrogate or too long) and when SQLite
      refuses the record as too long or has no rowid left; it has then
      written nothing.
    - The listing [db_fetch_all] is the rows its query returns.  Not in
      the model of the listing: a call whose filter cannot be bound, or
      whose LIKE pattern is longer than SQLite allows, raises; [LIKE] reads
      its operands up to their first U+0000; [str.lower()] also lowers
      letters beyond ASCII.  The model is the code on filters that are
      ASCII, can be bound and give a pattern within the limit, and on names
      without U+0000.
    - The table is the list of its rows in rowid order, which is the order a
      full scan visits them; [id INTEGER PRIMARY KEY AUTOINCREMENT] is the
      rowid, and the AUTOINCREMENT counter of [sqlite_sequence] is part of
      the state.
    - [ORDER BY] is a stable sort of the scanned rows (what SQLite's sorter
      does; the SQL text itself names no tie-break).
    - A call of the DB layer returns an [outcome]: its result, or the error
      it raises.
    - [db_init] runs on a second, lower view of the same table: column
      declarations and records of values, since there the columns are what
      changes.

    - The actions of the window and of the editor dialog are modelled as
      far as they read and write the store; what they get from the user,
      the file system and the clock is an argument.

    The model comes first, then the vocabulary the properties are stated
    in, then the properties. *)

From Stdlib Require Import List ZArith NArith Bool Lia String Ascii.

From Stdlib Require Import Sorting.Sorted Sorting.Permutation.

Import ListNotations.

(** ** Text *)

Definition codepoint := N.

Definition text := list codepoint.

(** An ASCII literal as [text]. *)
Definition txt (s : string) : text :=
  map N_of_ascii (list_ascii_of_string s).

Definition text_eq_dec : forall a b : text, {a = b} + {a <> b} :=
  list_eq_dec N.eq_dec.

Definition text_eqb (a b : text) : bool :=
  if text_eq_dec a b then true else false.

(** Python truthiness of a [str]: non-empty. *)
Definition truthy (t : text) : bool :=
  match t with [] => false | _ :: _ => true end.

(** Python truthiness of [str | None]. *)
Definition truthy_opt (o : option text) : bool :=
  match o with None => false | Some t => truthy t end.

(** Lexicographic comparison of code points: Python's [str] order and
    SQLite's BINARY collation. *)
Fixpoint text_compare (a b : text) : comparison :=
  match a, b with
  | [], [] => Eq
  | [], _ :: _ => Lt
  | _ :: _, [] => Gt
  | x :: a', y :: b' =>
      match N.compare x y with
      | Eq => text_compare a' b'
      | c => c
      end
  end.

Definition text_leb (a b : text) : bool :=
  match text_compare a b with Gt => false | _ => true end.

(** ASCII case folding: [A]..[Z] to [a]..[z], everything else unchanged.
    This is the whole of SQLite's [LOWER()], and the folding of its NOCASE
    collation. *)
Definition to_lower (c : codepoint) : codepoint :=
  if ((65 <=? c) && (c <=? 90))%N then (c + 32)%N else c.

Definition sql_lower (t : text) : text := map to_lower t.

(** [str.lower()].  Exact on ASCII text; CPython also maps cased letters
    beyond ASCII, which is left out here.  No code point outside ASCII
    lowers to one of the characters of ["__all__"], so the sentinel test of
    [db_fetch_all] is exact for every filter. *)
Definition py_lower (t : text) : text := map to_lower t.

(** [str.isspace()] on one code point: the characters [str.strip()]
    removes. *)
Definition is_space (c : codepoint) : bool :=
  (((9 <=? c) && (c <=? 13)) || ((28 <=? c) && (c <=? 32))
   || (c =? 133) || (c =? 160) || (c =? 5760)
   || ((8192 <=? c) && (c <=? 8202))
   || (c =? 8232) || (c =? 8233) || (c =? 8239) || (c =? 8287)
   || (c =? 12288))%N.

(** The only character SQLite's one-argument [TRIM()] removes: U+0020. *)
Definition is_blank_char (c : codepoint) : bool := (c =? 32)%N.

Fixpoint lstrip_by (f : codepoint -> bool) (t : text) : text :=
  match t with
  | [] => []
  | c :: t' => if f c then lstrip_by f t' else t
  end.

Definition rstrip_by (f : codepoint -> bool) (t : text) : text :=
  rev (lstrip_by f (rev t)).

Definition strip_by (f : codepoint -> bool) (t : text) : text :=
  rstrip_by f (lstrip_by f t).

(** [str.strip()] *)
Definition py_strip : text -> text := strip_by is_space.

(** SQL [TRIM(x)] *)
Definition sql_trim : text -> text := strip_by is_blank_char.

(** The bytes of a code point, and of a text, in UTF-8: how SQLite holds
    TEXT, and how [sqlite3] hands it a [str]. *)
Definition utf8_len (c : codepoint) : N :=
  (if c <? 128 then 1 else if c <? 2048 then 2 else if c <? 65536 then 3
   else 4)%N.

Definition utf8_length (t : text) : N :=
  fold_right (fun c n => (utf8_len c + n)%N) 0%N t.

(** ** The NOCASE collation

    [nocaseCollatingFunc] of SQLite compares the two texts with
    [sqlite3StrNICmp] over the bytes they both have, and by their lengths
    in bytes when that finds no difference.  [sqlite3StrNICmp] folds ASCII
    letters and stops at the first difference, and also at a zero byte of
    its first argument: what follows a U+0000 is never looked at.  UTF-8
    keeps the order of code points and has a zero byte for U+0000 only, so
    the walk over the bytes is the walk over the code points below. *)
Fixpoint sqlite3StrNICmp (a b : text) : comparison :=
  match a, b with
  | x :: a', y :: b' =>
      if (x =? 0)%N then N.compare 0 (to_lower y)
      else
        match N.compare (to_lower x) (to_lower y) with
        | Eq => sqlite3StrNICmp a' b'
        | c => c
        end
  | _, _ => Eq
  end.

Definition nocaseCollatingFunc (a b : text) : comparison :=
  match sqlite3StrNICmp a b with
  | Eq => N.compare (utf8_length a) (utf8_length b)
  | c => c
  end.

Definition nocase_leb (a b : text) : bool :=
  match nocaseCollatingFunc a b with Gt => false | _ => true end.

(** ** The LIKE operator

    [like p s] is [s LIKE p] with SQLite's defaults: [%] matches any run of
    characters, [_] matches any one character, every other pattern character
    matches itself, ASCII letters regardless of case; there is no escape
    character. *)

Definition PERCENT : codepoint := 37%N.

Definition UNDERSCORE : codepoint := 95%N.

Definition like_char (c c2 : codepoint) : bool :=
  ((c =? c2)
   || ((c <? 128) && (c2 <? 128) && (to_lower c =? to_lower c2))
   || (c =? UNDERSCORE))%N.

Fixpoint like (p s : text) {struct p} : bool :=
  match p with
  | [] => match s with [] => true | _ :: _ => false end
  | c :: p' =>
      if (c =? PERCENT)%N then
        (fix any (s : text) : bool :=
           like p' s || match s with [] => false | _ :: s' => any s' end) s
      else
        match s with
        | [] => false
        | c2 :: s' => like_char c c2 && like p' s'
        end
  end.

(** ** ORDER BY and DISTINCT *)

Section Sorting.

Variable A : Type.
Variable leb : A -> A -> bool.

(** Insertion before the first element that is not smaller: an element
    that came earlier in the scan stays ahead of its equals. *)
Fixpoint insert_sorted (x : A) (l : list A) : list A :=
  match l with
  | [] => [x]
  | y :: l' => if leb x y then x :: l else y :: insert_sorted x l'
  end.

Definition order_by (l : list A) : list A :=
  fold_right insert_sorted [] l.

End Sorting.

Arguments insert_sorted {A} leb x l.
Arguments order_by {A} leb l.

(** [SELECT DISTINCT] on a TEXT column of BINARY collation: the first
    occurrence of each value is kept. *)
Fixpoint distinct (l : list text) : list text :=
  match l with
  | [] => []
  | x :: l' => x :: filter (fun y => negb (text_eqb x y)) (distinct l')
  end.

(** ** The table [mods] *)

Record Row := mkRow {
  id : Z;
  name : text;
  cover_path : text;
  bat_path : text;
  status : text;
  last_run : Z;
  version : text;
  category : text;
  blend_path : text;
  work_path : text
}.

(** The rows in rowid order, and the AUTOINCREMENT counter that
    [sqlite_sequence] keeps for the table. *)
Record store := mkStore {
  rows : list Row;
  sqlite_sequence : Z
}.

Definition empty_store : store := {| rows := []; sqlite_sequence := 0 |}.

(** What a call of the DB layer can end in. *)
Inductive db_error :=
| OverflowError                (* Python int too large to convert to SQLite
                                  INTEGER; string longer than INT_MAX bytes *)
| UnicodeEncodeError           (* 'utf-8' codec can't encode: surrogates not
                                  allowed *)
| DataError                    (* SQLITE_TOOBIG: string or blob too big *)
| DatabaseFull                 (* SQLITE_FULL: the rowids are used up *)
| DuplicateColumn (c : text)   (* duplicate column name: c *)
| NotNullWithoutDefault        (* Cannot add a NOT NULL column with default value NULL *)
| NoSuchTable.

(** The result of a call, or the error it raises.  The writing functions
    run their statement inside [with db_connect() as con]: a call that
    raises has written nothing (a parameter that cannot be bound stops the
    statement before it runs, and a statement that fails is undone), so the
    table after [Raised] is the table before. *)
Inductive outcome (A : Type) :=
| Done (a : A)
| Raised (e : db_error).

Arguments Done {A} a.
Arguments Raised {A} e.

(** ** Parameters and records

    [con.execute(sql, params)] binds the parameters to the statement one
    after the other and raises at the first that cannot be bound: an [int]
    must fit SQLite's 64-bit signed INTEGER; a [str] must encode to UTF-8,
    which a lone surrogate does not, and its encoding must not be longer
    than [INT_MAX] bytes (a limit of [sqlite3]) nor than
    [SQLITE_MAX_LENGTH] bytes (a limit of SQLite). *)
Inductive param :=
| PInt (z : Z)
| PText (t : text).

Definition MIN_INT64 : Z := -9223372036854775808.

Definition MAX_INT64 : Z := 9223372036854775807.

Definition int64 (z : Z) : bool :=
  ((MIN_INT64 <=? z) && (z <=? MAX_INT64))%Z.

Definition surrogate (c : codepoint) : bool :=
  ((55296 <=? c) && (c <=? 57343))%N.

Definition utf8_encodable (t : text) : bool :=
  forallb (fun c => negb (surrogate c)) t.

Definition INT_MAX : N := 2147483647.

Definition SQLITE_MAX_LENGTH : N := 1000000000.

Definition bind_param (p : param) : option db_error :=
  match p with
  | PInt z => if int64 z then None else Some OverflowError
  | PText t =>
      if negb (utf8_encodable t) then Some UnicodeEncodeError
      else if (INT_MAX <? utf8_length t)%N then Some OverflowError
      else if (SQLITE_MAX_LENGTH <? utf8_length t)%N then Some DataError
      else None
  end.

Fixpoint bind_parameters (ps : list param) : option db_error :=
  match ps with
  | [] => None
  | p :: ps' =>
      match bind_param p with
      | Some e => Some e
      | None => bind_parameters ps'
      end
  end.

(** A row is written as one record, and SQLite refuses a record of more
    than [SQLITE_MAX_LENGTH] bytes.  The record is a header with one
    variable-length integer per column, which tells the type and the size
    of the value, followed by the values: a text takes its UTF-8 bytes, an
    integer 0 to 8 bytes by its magnitude, and the column [id], being the
    rowid, is kept outside the record, where a NULL with no bytes stands
    for it. *)
Definition sqlite3VarintLen (v : N) : N := (N.log2 v / 7 + 1)%N.

Definition int_bytes (i : Z) : N :=
  let uu := if (i <? 0)%Z then (- i - 1)%Z else i in
  if (uu <=? 127)%Z then
    if ((i =? 0) || (i =? 1))%Z then 0%N else 1%N
  else if (uu <=? 32767)%Z then 2%N
  else if (uu <=? 8388607)%Z then 3%N
  else if (uu <=? 2147483647)%Z then 4%N
  else if (uu <=? 140737488355327)%Z then 6%N
  else 8%N.

(** The bytes a value takes in the header and among the values. *)
Definition header_bytes (p : param) : N :=
  match p with
  | PInt _ => 1%N
  | PText t => sqlite3VarintLen (2 * utf8_length t + 13)
  end.

Definition value_bytes (p : param) : N :=
  match p with
  | PInt i => int_bytes i
  | PText t => utf8_length t
  end.

(** The size of the record of a row of [mods] whose columns after [id]
    hold [ps]: what [OP_MakeRecord] computes. *)
Definition record_size (ps : list param) : N :=
  let nHdr := fold_right (fun p n => (header_bytes p + n)%N) 1%N ps in
  let nData := fold_right (fun p n => (value_bytes p + n)%N) 0%N ps in
  let nHdr :=
    if (nHdr <=? 126)%N then (nHdr + 1)%N
    else
      let nVarint := sqlite3VarintLen nHdr in
      let nHdr := (nHdr + nVarint)%N in
      if (nVarint <? sqlite3VarintLen nHdr)%N then (nHdr + 1)%N else nHdr in
  (nHdr + nData)%N.

Definition too_big (ps : list param) : bool :=
  (SQLITE_MAX_LENGTH <? record_size ps)%N.

(** The [mod] dictionaries passed to [db_insert] and [db_update]: every key
    is optional, the text keys hold a [str], [last_run] an [int]. *)
Record mod_dict := mkMod {
  d_name : option text;
  d_cover_path : option text;
  d_bat_path : option text;
  d_status : option text;
  d_last_run : option Z;
  d_version : option text;
  d_category : option text;
  d_blend_path : option text;
  d_work_path : option text
}.

(** [mod.get(key, default)] *)
Definition get {A : Type} (o : option A) (default : A) : A :=
  match o with Some v => v | None => default end.

(** ** The DB layer *)

(** The conditions [db_fetch_all] appends to [WHERE 1=1], each with its
    bound argument. *)
Inductive cond :=
| NameLike (pattern : text)   (* AND LOWER(name) LIKE ? *)
| CategoryIs (c : text).      (* AND category = ? *)

Definition eval_cond (r : Row) (c : cond) : bool :=
  match c with
  | NameLike pattern => like pattern (sql_lower (name r))
  | CategoryIs c => text_eqb (category r) c
  end.

(** [ORDER BY name ASC]: the column has no declared collation, so BINARY. *)
Definition name_leb (r1 r2 : Row) : bool := text_leb (name r1) (name r2).

Definition ALL_SENTINEL : text := txt "__all__".

Definition db_fetch_all (s : store) (name_filter category_filter : option text)
  : list Row :=
  let q := [] in
  let q :=
    match name_filter with
    | Some f =>
        if truthy f
        then q ++ [NameLike ([PERCENT] ++ py_lower f ++ [PERCENT])]
        else q
    | None => q
    end in
  let q :=
    match category_filter with
    | Some c =>
        if truthy c && negb (text_eqb (py_lower c) ALL_SENTINEL)
        then q ++ [CategoryIs c]
        else q
    | None => q
    end in
  order_by name_leb (filter (fun r => forallb (eval_cond r) q) (rows s)).

(** [SELECT DISTINCT category FROM mods WHERE TRIM(category) <> ''
     ORDER BY category COLLATE NOCASE], then the comprehension
    [[r[0] for r in rows if r[0]]]. *)
Definition db_distinct_categories (s : store) : list text :=
  let selected :=
    filter (fun r => negb (text_eqb (sql_trim (category r)) [])) (rows s) in
  let fetched := order_by nocase_leb (distinct (map category selected)) in
  filter truthy fetched.

(** The rowid an AUTOINCREMENT table gives its next row: one more than the
    largest rowid in the table (1 for an empty table), raised to one more
    than the counter if that is larger; SQLITE_FULL once the largest rowid
    has been handed out. *)
Definition MAX_ROWID : Z := 9223372036854775807.

Definition max_id (l : list Row) : option Z :=
  fold_right
    (fun r acc =>
       match acc with
       | None => Some (id r)
       | Some m => Some (Z.max (id r) m)
       end)
    None l.

Definition new_rowid (s : store) : option Z :=
  let v :=
    match max_id (rows s) with
    | None => Some 1%Z
    | Some m => if (m >=? MAX_ROWID)%Z then None else Some (m + 1)%Z
    end in
  match v with
  | None => None
  | Some v =>
      if (sqlite_sequence s =? MAX_ROWID)%Z then None
      else Some (if (v <? sqlite_sequence s + 1)%Z then (sqlite_sequence s + 1)%Z else v)
  end.

Definition READY : text := txt "Ready".

(** The nine values [db_insert] and [db_update] bind for [mod], in the
    order of the statement. *)
Definition parameters (m : mod_dict) : list param :=
  [ PText (get (d_name m) []);
    PText (get (d_cover_path m) []);
    PText (get (d_bat_path m) []);
    PText (get (d_status m) READY);
    PInt (get (d_last_run m) 0%Z);
    PText (py_strip (get (d_version m) []));
    PText (py_strip (get (d_category m) []));
    PText (py_strip (get (d_blend_path m) []));
    PText (py_strip (get (d_work_path m) [])) ].

(** The values a row holds in the columns after [id]. *)
Definition values (r : Row) : list param :=
  [ PText (name r); PText (cover_path r); PText (bat_path r);
    PText (status r); PInt (last_run r); PText (version r);
    PText (category r); PText (blend_path r); PText (work_path r) ].

(** The row [db_insert] and [db_update] write for [mod], under rowid [i]. *)
Definition row_of_mod (i : Z) (m : mod_dict) : Row :=
  {| id := i;
     name := get (d_name m) [];
     cover_path := get (d_cover_path m) [];
     bat_path := get (d_bat_path m) [];
     status := get (d_status m) READY;
     last_run := get (d_last_run m) 0%Z;
     version := py_strip (get (d_version m) []);
     category := py_strip (get (d_category m) []);
     blend_path := py_strip (get (d_blend_path m) []);
     work_path := py_strip (get (d_work_path m) []) |}.

(** Returns the new store and [cur.lastrowid].  The statement builds the
    record before it asks for the rowid. *)
Definition db_insert (s : store) (m : mod_dict) : outcome (store * Z) :=
  match bind_parameters (parameters m) with
  | Some e => Raised e
  | None =>
      if too_big (parameters m) then Raised DataError
      else
        match new_rowid s with
        | None => Raised DatabaseFull
        | Some i =>
            Done ({| rows := rows s ++ [row_of_mod i m];
                     sqlite_sequence := i |}, i)
        end
  end.

(** The record is built for a row that [WHERE id = ?] finds; without such
    a row only the binding can fail. *)
Definition db_update (s : store) (mod_id : Z) (m : mod_dict) : outcome store :=
  match bind_parameters (parameters m ++ [PInt mod_id]) with
  | Some e => Raised e
  | None =>
      if existsb (fun r => (id r =? mod_id)%Z) (rows s)
         && too_big (parameters m)
      then Raised DataError
      else
        Done {| rows :=
                  map (fun r => if (id r =? mod_id)%Z
                                then row_of_mod (id r) m else r)
                      (rows s);
                sqlite_sequence := sqlite_sequence s |}
  end.

Definition db_delete (s : store) (mod_id : Z) : outcome store :=
  match bind_parameters [PInt mod_id] with
  | Some e => Raised e
  | None =>
      Done {| rows := filter (fun r => negb (id r =? mod_id)%Z) (rows s);
              sqlite_sequence := sqlite_sequence s |}
  end.

Definition set_run (st : text) (ts : Z) (r : Row) : Row :=
  {| id := id r;
     name := name r;
     cover_path := cover_path r;
     bat_path := bat_path r;
     status := st;
     last_run := ts;
     version := version r;
     category := category r;
     blend_path := blend_path r;
     work_path := work_path r |}.

Definition db_update_run (s : store) (mod_id : Z) (st : text) (last_run_ts : Z)
  : outcome store :=
  match bind_parameters [PText st; PInt last_run_ts; PInt mod_id] with
  | Some e => Raised e
  | None =>
      if existsb (fun r => (id r =? mod_id)%Z
                           && too_big (values (set_run st last_run_ts r)))
                 (rows s)
      then Raised DataError
      else
        Done {| rows :=
                  map (fun r => if (id r =? mod_id)%Z
                                then set_run st last_run_ts r else r)
                      (rows s);
                sqlite_sequence := sqlite_sequence s |}
  end.

(** ** The caller of [db_insert]: [MainWindow.add_mod] *)

(** The editor dialog when it closes: the [mod] it was opened with and the
    text of each of its widgets. *)
Record ModEditorDialog := mkDialog {
  dlg_mod : mod_dict;
  name_edit : text;
  version_edit : text;
  category_combo : text;
  cover_edit : text;
  bat_edit : text;
  blend_edit : text;
  work_edit : text
}.

(** The [mod] of a dialog opened without one. *)
Definition blank_mod : mod_dict :=
  {| d_name := Some [];
     d_cover_path := Some [];
     d_bat_path := Some [];
     d_status := Some READY;
     d_last_run := Some 0%Z;
     d_version := Some [];
     d_category := Some [];
     d_blend_path := Some [];
     d_work_path := Some [] |}.

Definition get_value (dlg : ModEditorDialog) : mod_dict :=
  {| d_name := Some (py_strip (name_edit dlg));
     d_cover_path := Some (py_strip (cover_edit dlg));
     d_bat_path := Some (py_strip (bat_edit dlg));
     d_status := Some (get (d_status (dlg_mod dlg)) READY);
     d_last_run := Some (get (d_last_run (dlg_mod dlg)) 0%Z);
     d_version := Some (py_strip (version_edit dlg));
     d_category := Some (py_strip (category_combo dlg));
     d_blend_path := Some (py_strip (blend_edit dlg));
     d_work_path := Some (py_strip (work_edit dlg)) |}.

(** [add_mod]: [accepted] is whether the dialog was closed with Save, [dlg]
    the dialog at that moment.  The table refresh that follows an insert
    only reads the store. *)
Definition add_mod (s : store) (accepted : bool) (dlg : ModEditorDialog)
  : outcome store :=
  if accepted then
    let v := get_value dlg in
    if truthy (get (d_name v) []) then
      match db_insert s v with
      | Done (s', _) => Done s'
      | Raised e => Raised e
      end
    else Done s
  else Done s.

(** ** The rest of [MainWindow] and of the editor dialog

    What the window's other actions read from and write to the store.  What
    they get from outside the program is an argument: the index of the
    selected table row, how a dialog was closed, whether a path exists,
    whether the script could be started, the clock. *)

Inductive ui_error :=
| IndexError                 (* self.rows[idx] past the end of the list *)
| DbError (e : db_error).

Inductive ui_outcome (A : Type) :=
| Finished (a : A)
| Failed (e : ui_error).

Arguments Finished {A} a.
Arguments Failed {A} e.

(** [self.rows[idx]] for an [idx] that is not negative. *)
Definition rows_at (self_rows : list Row) (idx : Z) : option Row :=
  nth_error self_rows (Z.to_nat idx).

(** [refresh_categories]: the items of the category filter box, each with
    its label and its [userData]. *)
Definition refresh_categories (s : store) : list (text * text) :=
  (txt "All", ALL_SENTINEL)
  :: map (fun c => (c, c)) (db_distinct_categories s).

(** [current_category_filter]: [data] is [currentData()], [None] when the
    box has no current item. *)
Definition current_category_filter (data : option text) : text :=
  match data with Some d => d | None => ALL_SENTINEL end.

(** [refresh]: the new [self.rows], from the text of the search box and the
    data of the category box. *)
Definition refresh (s : store) (search_edit : text) (data : option text)
  : list Row :=
  let name_q := py_strip search_edit in
  let cat_q := current_category_filter data in
  db_fetch_all s (if truthy name_q then Some name_q else None) (Some cat_q).

(** A dictionary with no key at all, which Python takes for false. *)
Definition empty_dict (m : mod_dict) : bool :=
  match d_name m, d_cover_path m, d_bat_path m, d_status m, d_last_run m,
        d_version m, d_category m, d_blend_path m, d_work_path m with
  | None, None, None, None, None, None, None, None, None => true
  | _, _, _, _, _, _, _, _, _ => false
  end.

(** [self.mod = mod or {...}] of [ModEditorDialog.__init__]. *)
Definition dialog_mod (m : option mod_dict) : mod_dict :=
  match m with
  | None => blank_mod
  | Some d => if empty_dict d then blank_mod else d
  end.

(** The dialog opened with [mod], when it closes with the widget texts of
    [entered]. *)
Definition opened (m : option mod_dict) (entered : ModEditorDialog)
  : ModEditorDialog :=
  {| dlg_mod := dialog_mod m;
     name_edit := name_edit entered;
     version_edit := version_edit entered;
     category_combo := category_combo entered;
     cover_edit := cover_edit entered;
     bat_edit := bat_edit entered;
     blend_edit := blend_edit entered;
     work_edit := work_edit entered |}.

(** The items [ModEditorDialog.__init__] puts in its category box: the
    existing categories, with the record's own stripped category in front
    when it is non-empty and not among them. *)
Definition category_items (existing_categories : list text)
  (m : option mod_dict) : list text :=
  let cur_cat := py_strip (get (d_category (dialog_mod m)) []) in
  if truthy cur_cat && negb (existsb (text_eqb cur_cat) existing_categories)
  then cur_cat :: existing_categories
  else existing_categories.

(** The dictionary [current] that [edit_selected] builds from a row. *)
Definition mod_of_row (row : Row) : mod_dict :=
  {| d_name := Some (name row);
     d_cover_path := Some (cover_path row);
     d_bat_path := Some (bat_path row);
     d_status := Some (status row);
     d_last_run := Some (last_run row);
     d_version := Some (version row);
     d_category := Some (category row);
     d_blend_path := Some (blend_path row);
     d_work_path := Some (work_path row) |}.

(** [edit_selected]: [idx] is [current_row_index()], -1 for no selection. *)
Definition edit_selected (s : store) (self_rows : list Row) (idx : Z)
  (accepted : bool) (entered : ModEditorDialog) : ui_outcome store :=
  if (idx <? 0)%Z then Finished s
  else
    match rows_at self_rows idx with
    | None => Failed IndexError
    | Some row =>
        let current := mod_of_row row in
        if accepted then
          let updated := get_value (opened (Some current) entered) in
          match db_update s (id row) updated with
          | Done s' => Finished s'
          | Raised e => Failed (DbError e)
          end
        else Finished s
    end.

(** [selected_id] *)
Definition selected_id (self_rows : list Row) (idx : Z)
  : ui_outcome (option Z) :=
  if (idx <? 0)%Z then Finished None
  else
    match rows_at self_rows idx with
    | None => Failed IndexError
    | Some row => Finished (Some (id row))
    end.

(** [delete_selected]: [reply_yes] is the answer to the question box. *)
Definition delete_selected (s : store) (self_rows : list Row) (idx : Z)
  (reply_yes : bool) : ui_outcome store :=
  match selected_id self_rows idx with
  | Failed e => Failed e
  | Finished None => Finished s
  | Finished (Some sel_id) =>
      if reply_yes then
        match db_delete s sel_id with
        | Done s' => Finished s'
        | Raised e => Failed (DbError e)
        end
      else Finished s
  end.

Definition RUNNING : text := txt "Running".

(** [run_selected]: [path_exists] is [Path(..).exists()], [popen_ok]
    whether [subprocess.Popen] returned rather than raised, [now_ts] the
    clock.  Whatever is raised inside the [try] ends in a message box. *)
Definition run_selected (s : store) (self_rows : list Row) (idx : Z)
  (path_exists : text -> bool) (popen_ok : bool) (now_ts : Z)
  : ui_outcome store :=
  if (idx <? 0)%Z then Finished s
  else
    match rows_at self_rows idx with
    | None => Failed IndexError
    | Some row =>
        let bat := bat_path row in
        if negb (truthy bat) || negb (path_exists bat) then Finished s
        else if popen_ok then
          match db_update_run s (id row) RUNNING now_ts with
          | Done s' => Finished s'
          | Raised _ => Finished s
          end
        else Finished s
    end.

(** The loop at the end of [refresh]: the index of the first table row
    whose name cell reads [select_name], from row [k] on. *)
Fixpoint first_named (select_name : text) (self_rows : list Row) (k : nat)
  : option nat :=
  match self_rows with
  | [] => None
  | r :: rest =>
      if text_eqb (name r) select_name then Some k
      else first_named select_name rest (S k)
  end.

(** The row [refresh] selects, if any: none without a [select_name]. *)
Definition reselect (self_rows : list Row) (select_name : option text)
  : option nat :=
  match select_name with
  | Some n => if truthy n then first_named n self_rows 0 else None
  | None => None
  end.

(** * The schema migrator: [db_init]

    Here the shape of the table is itself state: the database file may not
    have the table at all, or have it with the columns of an older version.
    A table is its column declarations and its records, one value per
    column. *)

Inductive value :=
| VNull
| VInt (z : Z)
| VText (t : text).

Record column := mkColumn {
  col_name : text;
  col_type : text;
  col_notnull : bool;
  col_default : option value;
  col_pk : bool
}.

Record table := mkTable {
  columns : list column;
  records : list (list value)
}.

(** The table [mods] of the database file, if it exists. *)
Definition database := option table.

(** Statements run on the connection one after the other; DDL is not
    wrapped in a transaction by [sqlite3], so what ran before a failing
    statement stays. *)
Definition sql (A : Type) : Type := database -> outcome A * database.

Definition ret {A : Type} (a : A) : sql A := fun d => (Done a, d).

Definition bind {A B : Type} (c : sql A) (k : A -> sql B) : sql B :=
  fun d =>
    match c d with
    | (Done a, d') => k a d'
    | (Raised e, d') => (Raised e, d')
    end.

Notation "x <- c ;; k" := (bind c (fun x => k))
  (at level 61, c at next level, right associativity).

Notation "c ;; k" := (bind c (fun _ => k))
  (at level 61, right associativity).

Definition TEXT : text := txt "TEXT".

Definition INTEGER : text := txt "INTEGER".

Definition text_column (n : string) (default : option string) : column :=
  {| col_name := txt n; col_type := TEXT; col_notnull := true;
     col_default := option_map (fun s => VText (txt s)) default;
     col_pk := false |}.

(** The columns of the [CREATE TABLE] statement: the original schema. *)
Definition base_columns : list column :=
  [ {| col_name := txt "id"; col_type := INTEGER; col_notnull := false;
       col_default := None; col_pk := true |};
    text_column "name" None;
    text_column "cover_path" (Some EmptyString);
    text_column "bat_path" (Some EmptyString);
    text_column "status" (Some "Ready"%string);
    {| col_name := txt "last_run"; col_type := INTEGER; col_notnull := true;
       col_default := Some (VInt 0); col_pk := false |} ].

Definition version_column : column := text_column "version" (Some EmptyString).

Definition category_column : column := text_column "category" (Some EmptyString).

Definition blend_path_column : column := text_column "blend_path" (Some EmptyString).

Definition work_path_column : column := text_column "work_path" (Some EmptyString).

(** [CREATE TABLE IF NOT EXISTS mods (...)] *)
Definition create_table_if_not_exists : sql unit :=
  fun d =>
    match d with
    | Some _ => (Done tt, d)
    | None => (Done tt, Some {| columns := base_columns; records := [] |})
    end.

(** [PRAGMA table_info(mods)]: one row per column, none when there is no
    such table. *)
Definition table_info : sql (list column) :=
  fun d =>
    match d with
    | Some t => (Done (columns t), d)
    | None => (Done [], d)
    end.

(** [any(row[1] == col for row in cur.fetchall())]: Python's [==], so the
    name as it is spelled. *)
Definition _column_exists (col : text) : sql bool :=
  info <- table_info ;;
  ret (existsb (fun c => text_eqb (col_name c) col) info).

(** SQLite identifies columns by name regardless of ASCII case. *)
Definition same_column (a b : text) : bool :=
  text_eqb (sql_lower a) (sql_lower b).

Definition default_value (c : column) : value :=
  match col_default c with Some v => v | None => VNull end.

(** [ALTER TABLE mods ADD COLUMN c]: every record there reads the default
    in the new column; a NOT NULL column without a default is refused when
    there are records. *)
Definition alter_table_add_column (c : column) : sql unit :=
  fun d =>
    match d with
    | None => (Raised NoSuchTable, d)
    | Some t =>
        if existsb (fun c' => same_column (col_name c') (col_name c))
                   (columns t)
        then (Raised (DuplicateColumn (col_name c)), d)
        else
          match col_notnull c, default_value c, records t with
          | true, VNull, _ :: _ => (Raised NotNullWithoutDefault, d)
          | _, v, _ =>
              (Done tt,
               Some {| columns := columns t ++ [c];
                       records := map (fun r => r ++ [v]) (records t) |})
          end
    end.

(** One migration: [if not _column_exists(con, "mods", c): con.execute(
    "ALTER TABLE mods ADD COLUMN c ...")]. *)
Definition migrate (c : column) : sql unit :=
  b <- _column_exists (col_name c) ;;
  if negb b then alter_table_add_column c else ret tt.

Definition db_init : sql unit :=
  create_table_if_not_exists ;;
  migrate version_column ;;
  migrate category_column ;;
  migrate blend_path_column ;;
  migrate work_path_column ;;
  ret tt.

(** * Vocabulary of the properties *)

(** ** Orders *)

(** [a] is not above [b]. *)
Definition is_le {A : Type} (leb : A -> A -> bool) (a b : A) : Prop :=
  leb a b = true.

(** Below by [leb], and by [R] when [leb] does not tell the two apart. *)
Definition lex {A : Type} (leb : A -> A -> bool) (R : A -> A -> Prop)
  (a b : A) : Prop :=
  leb a b = true /\ (leb b a = true -> R a b).

(** The rows of a table are stored by ascending rowid, and the rowid is a
    key. *)
Definition rowid_before (a b : Row) : Prop := (id a < id b)%Z.

Definition rowid_ordered (s : store) : Prop :=
  StronglySorted rowid_before (rows s).

(** Names ascending in the BINARY collation, equal names by ascending
    [id]. *)
Definition name_then_id (a b : Row) : Prop :=
  text_compare (name a) (name b) = Lt
  \/ (name a = name b /\ (id a < id b)%Z).

(** Comparison regardless of ASCII case: the folded texts, code point by
    code point to their ends. *)
Definition nocase_compare (a b : text) : comparison :=
  text_compare (sql_lower a) (sql_lower b).

(** Names ascending regardless of ASCII case, names equal up to case by
    ascending [id]. *)
Definition nocase_name_then_id (a b : Row) : Prop :=
  nocase_compare (name a) (name b) = Lt
  \/ (nocase_compare (name a) (name b) = Eq /\ (id a < id b)%Z).

(** Not above when ASCII case is ignored. *)
Definition nocase_le (a b : text) : Prop := nocase_compare a b <> Gt.

(** What the NOCASE collation reads of a text: its code points, folded, up
    to and including the first U+0000. *)
Fixpoint nocase_key (t : text) : text :=
  match t with
  | [] => []
  | x :: t' => if (x =? 0)%N then [0%N] else to_lower x :: nocase_key t'
  end.

(** The order of the NOCASE collation: by what it reads of the texts, and
    by their lengths in bytes when that is the same. *)
Definition nocase_order (a b : text) : Prop :=
  text_compare (nocase_key a) (nocase_key b) = Lt
  \/ (nocase_key a = nocase_key b /\ (utf8_length a <= utf8_length b)%N).

(** No U+0000 in the text. *)
Definition nul_free (t : text) : Prop := ~ In 0%N t.

(** ** Filters *)

(** The two optional conditions of the query of [db_fetch_all], as tests on
    a row. *)
Definition name_passes (name_filter : option text) (r : Row) : bool :=
  match name_filter with
  | Some f =>
      if truthy f
      then like ([PERCENT] ++ py_lower f ++ [PERCENT]) (sql_lower (name r))
      else true
  | None => true
  end.

Definition category_passes (category_filter : option text) (r : Row) : bool :=
  match category_filter with
  | Some c =>
      if truthy c && negb (text_eqb (py_lower c) ALL_SENTINEL)
      then text_eqb (category r) c
      else true
  | None => true
  end.

(** [f] is a prefix of [n]; [f] occurs in [n]. *)
Fixpoint prefixb (f n : text) : bool :=
  match f, n with
  | [], _ => true
  | _ :: _, [] => false
  | c :: f', c2 :: n' => (c =? c2)%N && prefixb f' n'
  end.

Fixpoint infixb (f n : text) : bool :=
  prefixb f n || match n with [] => false | _ :: n' => infixb f n' end.

(** [f] occurs in [n] when ASCII case is ignored. *)
Definition nocase_infix (f n : text) : Prop :=
  exists pre post, sql_lower n = pre ++ sql_lower f ++ post.

(** The longest LIKE pattern SQLite takes, in bytes; with a longer one the
    query raises. *)
Definition SQLITE_MAX_LIKE_PATTERN_LENGTH : N := 50000.

(** A character that is neither wildcard of LIKE. *)
Definition plain (c : codepoint) : Prop := c <> PERCENT /\ c <> UNDERSCORE.

(** The filters on which the query gets no [category = ?] condition: none,
    the empty string, and ["__all__"] in any mix of cases. *)
Definition no_category_filter (cf : option text) : Prop :=
  cf = None \/ cf = Some []
  \/ exists c, cf = Some c /\ py_lower c = ALL_SENTINEL.

(** ** Whitespace *)

(** No character of the class [f] at either end. *)
Definition edge_free (f : codepoint -> bool) (t : text) : Prop :=
  (forall c t', t = c :: t' -> f c = false)
  /\ (forall c t', t = t' ++ [c] -> f c = false).

(** Python's notion: [t.strip()] is empty, i.e. [t] is empty or all
    whitespace. *)
Definition blank (t : text) : Prop := forallb is_space t = true.

(** Empty or made of U+0020 only: what [TRIM(category) <> ''] rejects. *)
Definition only_spaces (t : text) : Prop := forallb is_blank_char t = true.

(** Every category is as [str.strip()] leaves it. *)
Definition categories_stripped (s : store) : Prop :=
  Forall (fun r => py_strip (category r) = category r) (rows s).

(** ** The writing operations *)

(** A value SQLite takes as a parameter: an integer within 64 bits; a text
    without surrogate code points whose UTF-8 encoding is not longer than
    [SQLITE_MAX_LENGTH] bytes. *)
Definition sqlite_value (p : param) : Prop :=
  match p with
  | PInt z => (MIN_INT64 <= z <= MAX_INT64)%Z
  | PText t =>
      Forall (fun c => ~ (55296 <= c <= 57343)%N) t
      /\ (utf8_length t <= SQLITE_MAX_LENGTH)%N
  end.

(** Values SQLite takes as the record of a row: each of them a value it
    takes, and the record within its length limit. *)
Definition storable (ps : list param) : Prop :=
  Forall sqlite_value ps /\ (record_size ps <= SQLITE_MAX_LENGTH)%N.

(** A row, and a table, that SQLite can hold: the id and the counter
    64-bit integers, the values of each row storable. *)
Definition sqlite_row (r : Row) : Prop :=
  sqlite_value (PInt (id r)) /\ storable (values r).

Definition sqlite_store (s : store) : Prop :=
  sqlite_value (PInt (sqlite_sequence s)) /\ Forall sqlite_row (rows s).

(** SQLite takes the status, the timestamp and the id, and the record of
    every row of that id with the new status and timestamp. *)
Definition run_storable (s : store) (mod_id : Z) (st : text) (ts : Z)
  : Prop :=
  Forall sqlite_value [PText st; PInt ts; PInt mod_id]
  /\ forall r, In r (rows s) -> id r = mod_id ->
                (record_size (values (set_run st ts r)) <= SQLITE_MAX_LENGTH)%N.

(** The table still has a rowid to give. *)
Definition has_free_rowid (s : store) : Prop :=
  (sqlite_sequence s < MAX_ROWID)%Z
  /\ Forall (fun r => (id r < MAX_ROWID)%Z) (rows s).

(** What [db_update_run] may do to a row [r], giving [r']. *)
Definition run_frame (mod_id : Z) (st : text) (ts : Z) (r r' : Row) : Prop :=
  id r' = id r
  /\ name r' = name r
  /\ cover_path r' = cover_path r
  /\ bat_path r' = bat_path r
  /\ version r' = version r
  /\ category r' = category r
  /\ blend_path r' = blend_path r
  /\ work_path r' = work_path r
  /\ (id r = mod_id -> status r' = st /\ last_run r' = ts)
  /\ (id r <> mod_id -> r' = r).

(** The row [r] holds the field set [m]: the four newer text fields
    stripped, the others as supplied, each default where the key is
    missing. *)
Definition persists (m : mod_dict) (r : Row) : Prop :=
  name r = get (d_name m) []
  /\ cover_path r = get (d_cover_path m) []
  /\ bat_path r = get (d_bat_path m) []
  /\ status r = get (d_status m) (txt "Ready")
  /\ last_run r = get (d_last_run m) 0%Z
  /\ version r = py_strip (get (d_version m) [])
  /\ category r = py_strip (get (d_category m) [])
  /\ blend_path r = py_strip (get (d_blend_path m) [])
  /\ work_path r = py_strip (get (d_work_path m) []).

(** No whitespace at either end of the four stripped fields. *)
Definition trimmed (r : Row) : Prop :=
  edge_free is_space (version r)
  /\ edge_free is_space (category r)
  /\ edge_free is_space (blend_path r)
  /\ edge_free is_space (work_path r).

(** What [db_init] leaves in the four newer columns of rows it did not
    write: the default, the empty string. *)
Definition backfilled (r : Row) : Prop :=
  version r = [] /\ category r = [] /\ blend_path r = [] /\ work_path r = [].

(** One writing operation of the DB layer. *)
Inductive step : store -> store -> Prop :=
| step_insert (s s' : store) (m : mod_dict) (i : Z) :
    db_insert s m = Done (s', i) -> step s s'
| step_update (s s' : store) (mod_id : Z) (m : mod_dict) :
    db_update s mod_id m = Done s' -> step s s'
| step_delete (s s' : store) (mod_id : Z) :
    db_delete s mod_id = Done s' -> step s s'
| step_update_run (s s' : store) (mod_id : Z) (st : text) (ts : Z) :
    db_update_run s mod_id st ts = Done s' -> step s s'.

(** Any number of them, one after the other. *)
Inductive steps : store -> store -> Prop :=
| steps_none (s : store) : steps s s
| steps_more (s s' s'' : store) : steps s s' -> step s' s'' -> steps s s''.

(** The stores the application gets to: from what [db_init] leaves (a new,
    empty table, or an older table with the newer columns backfilled), by
    writing operations. *)
Inductive reachable : store -> Prop :=
| reach_init (s : store) :
    rowid_ordered s -> Forall backfilled (rows s) -> reachable s
| reach_step (s s' : store) :
    reachable s -> step s s' -> reachable s'.

(** The id [i] has been handed out and no row has it any more. *)
Definition retired (i : Z) (s : store) : Prop :=
  (i <= sqlite_sequence s)%Z /\ forall r, In r (rows s) -> id r <> i.

(** ** The schema *)

(** A column of that name, as spelled; a column of that name, as SQLite
    sees it. *)
Definition has_exact (n : text) (cols : list column) : bool :=
  existsb (fun c => text_eqb (col_name c) n) cols.

Definition has_column (n : text) (cols : list column) : bool :=
  existsb (fun c => same_column (col_name c) n) cols.

(** The table after [ALTER TABLE ... ADD COLUMN c]. *)
Definition add_column (c : column) (t : table) : table :=
  {| columns := columns t ++ [c];
     records := map (fun r => r ++ [default_value c]) (records t) |}.

(** The migrations of [db_init], one after the other. *)
Definition migrations (l : list column) : sql unit :=
  fold_right (fun c k => migrate c ;; k) (ret tt) l.

Definition newer_columns : list column :=
  [version_column; category_column; blend_path_column; work_path_column].

(** The value a record holds in the column named [n]. *)
Fixpoint field (cols : list column) (r : list value) (n : text) : option value :=
  match cols, r with
  | c :: cols', v :: r' =>
      if same_column (col_name c) n then Some v else field cols' r' n
  | _, _ => None
  end.

(** None of the four newer columns is in the table, under any spelling. *)
Definition lacks_newer_columns (t : table) : Prop :=
  Forall (fun c => has_column (col_name c) (columns t) = false) newer_columns.

(** Every record has one value per column. *)
Definition well_formed (t : table) : Prop :=
  Forall (fun r => List.length r = List.length (columns t)) (records t).

(** The defaults of the four newer columns. *)
Definition backfill : list value := [VText []; VText []; VText []; VText []].

(** A record of the current schema as a [Row]. *)
Definition row_of_record (r : list value) : option Row :=
  match r with
  | [VInt i; VText n; VText cp; VText bp; VText st; VInt lr;
     VText v; VText c; VText b; VText w] =>
      Some {| id := i; name := n; cover_path := cp; bat_path := bp;
              status := st; last_run := lr; version := v; category := c;
              blend_path := b; work_path := w |}
  | _ => None
  end.

(** ** The window *)

(** A character of the ASCII range, where [str.lower()] is the ASCII
    folding. *)
Definition ascii_char (c : codepoint) : Prop := (c < 128)%N.

(** All seven text fields free of whitespace at either end. *)
Definition all_trimmed (r : Row) : Prop :=
  edge_free is_space (name r)
  /\ edge_free is_space (cover_path r)
  /\ edge_free is_space (bat_path r)
  /\ trimmed r.

(** What an edit of the row [row] through the dialog [entered] may do to a
    row [r] of the table, giving [r']. *)
Definition edit_frame (row : Row) (entered : ModEditorDialog) (r r' : Row)
  : Prop :=
  id r' = id r
  /\ status r' = status r
  /\ last_run r' = last_run r
  /\ (id r <> id row -> r' = r)
  /\ (id r = id row ->
      name r' = py_strip (name_edit entered)
      /\ cover_path r' = py_strip (cover_edit entered)
      /\ bat_path r' = py_strip (bat_edit entered)
      /\ version r' = py_strip (version_edit entered)
      /\ category r' = py_strip (category_combo entered)
      /\ blend_path r' = py_strip (blend_edit entered)
      /\ work_path r' = py_strip (work_edit entered)).

(** The values an edit of [row] through the dialog [entered] binds. *)
Definition edited (row : Row) (entered : ModEditorDialog) : list param :=
  parameters (get_value (opened (Some (mod_of_row row)) entered)).

(** The category the editor dialog takes from the [mod] it is opened
    with. *)
Definition current_category (m : option mod_dict) : text :=
  py_strip (get (d_category (dialog_mod m)) []).

(** The record [r'] is [r] with values added at the end. *)
Definition extends_record (r r' : list value) : Prop :=
  exists vs, r' = r ++ vs.

(** * Sample data *)

(** A field set with a name and a category, and the row it is stored as. *)
Definition mod_named (n c : string) : mod_dict :=
  {| d_name := Some (txt n);
     d_cover_path := None;
     d_bat_path := None;
     d_status := None;
     d_last_run := None;
     d_version := None;
     d_category := Some (txt c);
     d_blend_path := None;
     d_work_path := None |}.

Definition ex_row (i : Z) (n c : string) : Row :=
  {| id := i; name := txt n; cover_path := []; bat_path := [];
     status := READY; last_run := 0; version := []; category := txt c;
     blend_path := []; work_path := [] |}.

(** A row with a name and every other field at its default. *)
Definition ex_named (i : Z) (n : string) : Row := ex_row i n EmptyString.

Definition store_a_B : store :=
  {| rows := [ex_named 1 "a"; ex_named 2 "B"]; sqlite_sequence := 2 |}.

(** Two records named "a" and, between them, one without a name. *)
Definition store_unnamed : store :=
  {| rows := [ex_named 1 "a"; ex_named 2 EmptyString; ex_named 3 "a"];
     sqlite_sequence := 3 |}.

Definition store_dragon : store :=
  {| rows := [ex_named 1 "Dragon Pose"]; sqlite_sequence := 1 |}.

Definition store_animation : store :=
  {| rows := [ex_row 1 "Jump Cycle" "Animation"]; sqlite_sequence := 1 |}.

(** Two categories that are the same up to a U+0000: "a", U+0000, "c" and
    "a", U+0000, "b"; a field set and a row with a category given as
    text. *)
Definition cat_a0c : text := [97; 0; 99]%N.

Definition cat_a0b : text := [97; 0; 98]%N.

Definition mod_in (n : string) (c : text) : mod_dict :=
  {| d_name := Some (txt n);
     d_cover_path := None;
     d_bat_path := None;
     d_status := None;
     d_last_run := None;
     d_version := None;
     d_category := Some c;
     d_blend_path := None;
     d_work_path := None |}.

Definition row_in (i : Z) (n : string) (c : text) : Row :=
  {| id := i; name := txt n; cover_path := []; bat_path := [];
     status := READY; last_run := 0; version := []; category := c;
     blend_path := []; work_path := [] |}.

Definition store_nul : store :=
  {| rows := [row_in 1 "Rig" cat_a0c; row_in 2 "Pose" cat_a0b];
     sqlite_sequence := 2 |}.

(** The three records of the end-to-end scenario. *)
Definition store_scenario : store :=
  {| rows := [ex_row 1 "Jump Cycle" "Animation";
              ex_row 2 "Idle Loop" "Animation";
              ex_row 3 "Rig Setup" "Rigging"];
     sqlite_sequence := 3 |}.

Definition mod_padded : mod_dict := mod_named "Jump Cycle" " Animation ".

Definition mod_without_name : mod_dict :=
  {| d_name := None;
     d_cover_path := None;
     d_bat_path := None;
     d_status := None;
     d_last_run := None;
     d_version := None;
     d_category := Some (txt "Rigging");
     d_blend_path := None;
     d_work_path := None |}.

Definition dialog_blank_name : ModEditorDialog :=
  {| dlg_mod := blank_mod;
     name_edit := txt "   ";
     version_edit := txt "1.0";
     category_combo := txt "Rigging";
     cover_edit := [];
     bat_edit := [];
     blend_edit := [];
     work_edit := [] |}.

(** A table of the original schema, with two records. *)
Definition legacy_table : table :=
  {| columns := base_columns;
     records :=
       [ [VInt 1; VText (txt "Jump Cycle"); VText (txt "jump.png");
          VText (txt "jump.bat"); VText (txt "Running"); VInt 1700000000];
         [VInt 2; VText (txt "Idle Loop"); VText []; VText [];
          VText (txt "Ready"); VInt 0] ] |}.

(** What a user typed into the dialog, spaces included. *)
Definition dialog_walk : ModEditorDialog :=
  {| dlg_mod := blank_mod;
     name_edit := txt "  Walk Cycle ";
     version_edit := txt " 1.2";
     category_combo := txt "Animation ";
     cover_edit := txt " walk.png";
     bat_edit := txt "walk.bat ";
     blend_edit := [];
     work_edit := [] |}.

(** A row with a script to launch. *)
Definition row_walk : Row :=
  {| id := 4; name := txt "Walk Cycle"; cover_path := txt "walk.png";
     bat_path := txt "walk.bat"; status := READY; last_run := 0;
     version := txt "1.2"; category := txt "Animation";
     blend_path := []; work_path := [] |}.

Definition store_walk : store :=
  {| rows := rows store_scenario ++ [row_walk]; sqlite_sequence := 4 |}.

(** A table of the original schema that already has a column spelled
    [Category]. *)
Definition table_Category : table :=
  {| columns := base_columns ++ [text_column "Category" (Some EmptyString)];
     records := [ [VInt 1; VText (txt "Jump Cycle"); VText []; VText [];
                   VText (txt "Ready"); VInt 0; VText (txt "Animation")] ] |}.

(** A table of the current schema. *)
Definition current_table : table :=
  {| columns := base_columns ++ newer_columns;
     records := [ [VInt 1; VText (txt "Jump Cycle"); VText []; VText [];
                   VText (txt "Ready"); VInt 0; VText (txt "1.0");
                   VText (txt "Animation"); VText []; VText []] ] |}.

(** * Properties *)

(** ** Comparison of texts *)

Lemma text_eqb_true (a b : text) : text_eqb a b = true <-> a = b.
Proof.
  unfold text_eqb. destruct (text_eq_dec a b); split; congruence.
Qed.

Lemma text_eqb_false (a b : text) : text_eqb a b = false <-> a <> b.
Proof.
  unfold text_eqb. destruct (text_eq_dec a b); split; congruence.
Qed.

Lemma text_eqb_refl (a : text) : text_eqb a a = true.
Proof. now apply text_eqb_true. Qed.

Lemma text_compare_refl (a : text) : text_compare a a = Eq.
Proof.
  induction a as [|x a IH]; simpl; [reflexivity|].
  now rewrite N.compare_refl.
Qed.

Lemma text_compare_eq (a b : text) : text_compare a b = Eq -> a = b.
Proof.
  revert b. induction a as [|x a IH]; intros [|y b]; simpl; try congruence.
  destruct (N.compare_spec x y) as [->|Hlt|Hgt]; try discriminate.
  intros H. now rewrite (IH b H).
Qed.

Lemma text_compare_antisym (a b : text) :
  text_compare b a = CompOpp (text_compare a b).
Proof.
  revert b. induction a as [|x a IH]; intros [|y b]; simpl; try reflexivity.
  rewrite (N.compare_antisym x y).
  destruct (N.compare x y); simpl; auto.
Qed.

Lemma text_compare_lt_trans (a b c : text) :
  text_compare a b = Lt -> text_compare b c = Lt -> text_compare a c = Lt.
Proof.
  revert b c.
  induction a as [|x a IH]; intros [|y b] [|z c]; simpl; try congruence.
  destruct (N.compare_spec x y) as [->|Hxy|Hxy]; try discriminate.
  - destruct (N.compare_spec y z) as [->|Hyz|Hyz]; try discriminate.
    + apply IH.
    + reflexivity.
  - intros _.
    destruct (N.compare_spec y z) as [->|Hyz|Hyz]; try discriminate; intros _.
    + destruct (N.compare_spec x z); [lia|reflexivity|lia].
    + destruct (N.compare_spec x z); [lia|reflexivity|lia].
Qed.

Lemma text_leb_spec (a b : text) :
  text_leb a b = true <-> text_compare a b = Lt \/ a = b.
Proof.
  unfold text_leb. split.
  - destruct (text_compare a b) eqn:E; try discriminate; intros _.
    + right. now apply text_compare_eq.
    + now left.
  - intros [-> | ->]; [reflexivity|]. now rewrite text_compare_refl.
Qed.

Lemma text_leb_total (a b : text) : text_leb a b = false -> text_leb b a = true.
Proof.
  unfold text_leb. rewrite (text_compare_antisym a b).
  destruct (text_compare a b); simpl; congruence.
Qed.

Lemma text_leb_trans (a b c : text) :
  text_leb a b = true -> text_leb b c = true -> text_leb a c = true.
Proof.
  rewrite !text_leb_spec.
  intros [Hab | ->] [Hbc | ->]; auto.
  left. eapply text_compare_lt_trans; eauto.
Qed.

Lemma text_leb_antisym (a b : text) :
  text_leb a b = true -> text_leb b a = true -> a = b.
Proof.
  rewrite !text_leb_spec. intros [Hab | ->] [Hba | Hba]; auto.
  rewrite (text_compare_antisym a b), Hab in Hba. discriminate.
Qed.

(** ** The NOCASE collation *)

Lemma to_lower_zero (c : codepoint) : to_lower c = 0%N <-> c = 0%N.
Proof.
  unfold to_lower.
  destruct (N.leb_spec 65 c); destruct (N.leb_spec c 90); simpl; lia.
Qed.

Lemma utf8_len_to_lower (c : codepoint) : utf8_len (to_lower c) = utf8_len c.
Proof.
  unfold to_lower.
  destruct (N.leb_spec 65 c); destruct (N.leb_spec c 90); simpl;
    try reflexivity.
  unfold utf8_len.
  destruct (N.ltb_spec (c + 32) 128); [|lia].
  destruct (N.ltb_spec c 128); [reflexivity|lia].
Qed.

Lemma utf8_len_pos (c : codepoint) : (0 < utf8_len c)%N.
Proof.
  unfold utf8_len.
  destruct (c <? 128)%N; [lia|].
  destruct (c <? 2048)%N; [lia|].
  destruct (c <? 65536)%N; lia.
Qed.

Lemma utf8_length_sql_lower (t : text) :
  utf8_length (sql_lower t) = utf8_length t.
Proof.
  induction t as [|c t IH]; simpl; [reflexivity|].
  now rewrite utf8_len_to_lower, IH.
Qed.

Lemma N_add_compare_l (p n m : N) : (p + n ?= p + m)%N = (n ?= m)%N.
Proof.
  destruct (N.compare_spec n m) as [-> | H | H].
  - apply N.compare_refl.
  - apply N.compare_lt_iff. lia.
  - apply N.compare_gt_iff. lia.
Qed.

(** The collation compares what it reads of the two texts, and their
    lengths in bytes when that is the same. *)
Lemma nocaseCollatingFunc_key (a b : text) :
  nocaseCollatingFunc a b =
  match text_compare (nocase_key a) (nocase_key b) with
  | Eq => N.compare (utf8_length a) (utf8_length b)
  | c => c
  end.
Proof.
  unfold nocaseCollatingFunc. revert b.
  induction a as [|x a IH]; intros [|y b].
  - reflexivity.
  - simpl sqlite3StrNICmp. cbv iota.
    assert (H : N.compare (utf8_length []) (utf8_length (y :: b)) = Lt).
    { apply N.compare_lt_iff. simpl. pose proof (utf8_len_pos y). lia. }
    rewrite H. simpl. now destruct (y =? 0)%N.
  - simpl sqlite3StrNICmp. cbv iota.
    assert (H : N.compare (utf8_length (x :: a)) (utf8_length []) = Gt).
    { apply N.compare_gt_iff. simpl. pose proof (utf8_len_pos x). lia. }
    rewrite H. simpl. now destruct (x =? 0)%N.
  - cbn [sqlite3StrNICmp nocase_key].
    destruct (N.eqb_spec x 0) as [-> | Hx];
      destruct (N.eqb_spec y 0) as [-> | Hy]; cbv iota.
    + reflexivity.
    + assert (H : N.compare 0 (to_lower y) = Lt).
      { apply N.compare_lt_iff. pose proof (to_lower_zero y). lia. }
      cbn [text_compare]. now rewrite !H.
    + assert (H : N.compare (to_lower x) 0 = Gt).
      { apply N.compare_gt_iff. pose proof (to_lower_zero x). lia. }
      change (to_lower 0%N) with 0%N.
      cbn [text_compare]. now rewrite !H.
    + cbn [text_compare].
      destruct (N.compare_spec (to_lower x) (to_lower y)) as [E | E | E];
        try reflexivity.
      assert (Hu : utf8_len x = utf8_len y).
      { rewrite <- (utf8_len_to_lower x), <- (utf8_len_to_lower y).
        now rewrite E. }
      cbn [utf8_length fold_right]. rewrite Hu, N_add_compare_l.
      apply IH.
Qed.

Lemma nocase_leb_order (a b : text) :
  nocase_leb a b = true <-> nocase_order a b.
Proof.
  unfold nocase_leb, nocase_order. rewrite nocaseCollatingFunc_key.
  destruct (text_compare (nocase_key a) (nocase_key b)) eqn:E.
  - apply text_compare_eq in E. rewrite E. split.
    + intros H. right. split; [reflexivity|].
      unfold N.le. now destruct (utf8_length a ?= utf8_length b)%N.
    + intros [H | [_ H]]; [discriminate|].
      unfold N.le in H. now destruct (utf8_length a ?= utf8_length b)%N.
  - split; auto.
  - split; [discriminate|].
    intros [H | [H _]]; [discriminate|].
    now rewrite H, text_compare_refl in E.
Qed.

Lemma nocase_leb_total (a b : text) :
  nocase_leb a b = false -> nocase_leb b a = true.
Proof.
  unfold nocase_leb. rewrite !nocaseCollatingFunc_key.
  rewrite (text_compare_antisym (nocase_key a) (nocase_key b)).
  rewrite (N.compare_antisym (utf8_length a) (utf8_length b)).
  destruct (text_compare (nocase_key a) (nocase_key b)); simpl;
    try congruence.
  destruct (utf8_length a ?= utf8_length b)%N; simpl; congruence.
Qed.

Lemma nocase_order_trans (a b c : text) :
  nocase_order a b -> nocase_order b c -> nocase_order a c.
Proof.
  unfold nocase_order.
  intros [Hab | [Eab Lab]] [Hbc | [Ebc Lbc]].
  - left. eapply text_compare_lt_trans; eauto.
  - left. now rewrite <- Ebc.
  - left. now rewrite Eab.
  - right. split; [congruence | lia].
Qed.

Lemma nocase_leb_trans (a b c : text) :
  nocase_leb a b = true -> nocase_leb b c = true -> nocase_leb a c = true.
Proof. rewrite !nocase_leb_order. apply nocase_order_trans. Qed.

Lemma nocase_key_nul_free (t : text) :
  nul_free t -> nocase_key t = sql_lower t.
Proof.
  unfold nul_free. induction t as [|x t IH]; simpl; [reflexivity|].
  intros H. destruct (N.eqb_spec x 0) as [-> | _]; [tauto|].
  f_equal. apply IH. tauto.
Qed.

(** On texts without U+0000 the collation orders as the case-insensitive
    comparison does. *)
Lemma nocase_order_nul_free (a b : text) :
  nul_free a -> nul_free b -> nocase_order a b -> nocase_le a b.
Proof.
  intros Ha Hb. unfold nocase_order, nocase_le, nocase_compare.
  rewrite (nocase_key_nul_free a Ha), (nocase_key_nul_free b Hb).
  intros [H | [H _]]; [congruence|].
  rewrite H, text_compare_refl. discriminate.
Qed.

(** ** The stable sort behind ORDER BY *)

Section SortingFacts.

Variable A : Type.
Variable leb : A -> A -> bool.
Hypothesis leb_total : forall a b, leb a b = false -> leb b a = true.
Hypothesis leb_trans :
  forall a b c, leb a b = true -> leb b c = true -> leb a c = true.

Lemma insert_sorted_perm (x : A) (l : list A) :
  Permutation (insert_sorted leb x l) (x :: l).
Proof.
  induction l as [|y l IH]; simpl; [reflexivity|].
  destruct (leb x y); [reflexivity|].
  rewrite IH. apply perm_swap.
Qed.

Lemma order_by_perm (l : list A) : Permutation (order_by leb l) l.
Proof.
  induction l as [|x l IH]; simpl; [reflexivity|].
  rewrite insert_sorted_perm. now constructor.
Qed.

Lemma order_by_In (l : list A) (x : A) : In x (order_by leb l) <-> In x l.
Proof.
  split; apply Permutation_in;
    [apply order_by_perm | symmetry; apply order_by_perm].
Qed.

(** Sorting a scan that was already ordered by a second relation [R]
    yields the lexicographic order: by [leb] first, by [R] among equals. *)
Variable R : A -> A -> Prop.

Lemma insert_sorted_lex (x : A) (l : list A) :
  StronglySorted (lex leb R) l -> Forall (R x) l ->
  StronglySorted (lex leb R) (insert_sorted leb x l).
Proof.
  induction 1 as [|y l Hl IH Hy]; intros HR; simpl.
  - constructor; constructor.
  - inversion HR as [|? ? HRy HRl]; subst.
    destruct (leb x y) eqn:E.
    + constructor; [now constructor|].
      constructor.
      * split; auto.
      * rewrite Forall_forall in *. intros z Hz. split.
        -- apply leb_trans with y; auto. now apply Hy.
        -- intros _. now apply HRl.
    + constructor; [now apply IH|].
      rewrite Forall_forall in *. intros z Hz.
      apply (Permutation_in _ (insert_sorted_perm x l)) in Hz.
      destruct Hz as [<- | Hz]; [|now apply Hy].
      split; [now apply leb_total | congruence].
Qed.

Lemma order_by_lex (l : list A) :
  StronglySorted R l -> StronglySorted (lex leb R) (order_by leb l).
Proof.
  induction 1 as [|x l Hl IH Hx]; simpl; [constructor|].
  apply insert_sorted_lex; [assumption|].
  rewrite Forall_forall in *. intros z Hz.
  apply Hx. now apply order_by_In.
Qed.

Lemma order_by_sorted (l : list A) : StronglySorted (is_le leb) (order_by leb l).
Proof.
  induction l as [|x l IH]; simpl; [constructor|].
  induction IH as [|y l' Hl' IH' Hy]; simpl.
  - constructor; constructor.
  - destruct (leb x y) eqn:E.
    + constructor; [now constructor|].
      constructor; [exact E|].
      rewrite Forall_forall in *. intros z Hz.
      apply leb_trans with y; auto. now apply Hy.
    + constructor; [assumption|].
      rewrite Forall_forall in *. intros z Hz.
      apply (Permutation_in _ (insert_sorted_perm x l')) in Hz.
      destruct Hz as [<- | Hz]; [now apply leb_total | now apply Hy].
Qed.

(** On a sorted list, [WHERE] and [ORDER BY] commute. *)
Lemma filter_insert_sorted (p : A -> bool) (x : A) (l : list A) :
  StronglySorted (is_le leb) l ->
  filter p (insert_sorted leb x l) =
  if p x then insert_sorted leb x (filter p l) else filter p l.
Proof.
  induction 1 as [|y l Hl IH Hy]; simpl.
  - now destruct (p x).
  - destruct (leb x y) eqn:E; simpl.
    + destruct (p x) eqn:Px; destruct (p y) eqn:Py; simpl;
        rewrite ?E; try reflexivity.
      (* x kept, y dropped: x is not above anything left in l *)
      clear IH. induction l as [|z l IHl]; simpl; [reflexivity|].
      inversion Hy as [|? ? Hyz Hyl]; subst.
      inversion Hl as [|? ? Hl' Hz]; subst.
      destruct (p z) eqn:Pz.
      * simpl. unfold is_le in Hyz. now rewrite (leb_trans _ _ _ E Hyz).
      * now apply IHl.
    + rewrite IH.
      destruct (p x) eqn:Px; destruct (p y) eqn:Py; simpl;
        rewrite ?E; reflexivity.
Qed.

Lemma filter_order_by (p : A -> bool) (l : list A) :
  filter p (order_by leb l) = order_by leb (filter p l).
Proof.
  induction l as [|x l IH]; simpl; [reflexivity|].
  rewrite filter_insert_sorted by apply order_by_sorted.
  rewrite IH. now destruct (p x).
Qed.

End SortingFacts.

(** [ORDER BY] only looks at the sort key: a change to the rows that keeps
    every key commutes with it. *)
Lemma order_by_map (A : Type) (leb : A -> A -> bool) (f : A -> A) (l : list A) :
  (forall a b, leb (f a) (f b) = leb a b) ->
  map f (order_by leb l) = order_by leb (map f l).
Proof.
  intros Hf. induction l as [|x l IH]; simpl; [reflexivity|].
  rewrite <- IH. generalize (order_by leb l) as s. clear IH.
  induction s as [|y s IHs]; simpl; [reflexivity|].
  rewrite Hf. destruct (leb x y); simpl; [reflexivity|].
  now rewrite IHs.
Qed.

Lemma StronglySorted_weaken (A : Type) (R R' : A -> A -> Prop) (l : list A) :
  (forall a b, R a b -> R' a b) -> StronglySorted R l -> StronglySorted R' l.
Proof.
  intros HR. induction 1 as [|x l Hl IH Hx]; constructor; [assumption|].
  eapply Forall_impl; [|exact Hx]. intros a. apply HR.
Qed.

Lemma StronglySorted_filter (A : Type) (R : A -> A -> Prop) (p : A -> bool)
  (l : list A) :
  StronglySorted R l -> StronglySorted R (filter p l).
Proof.
  induction 1 as [|x l Hl IH Hx]; simpl; [constructor|].
  destruct (p x); [|assumption].
  constructor; [assumption|].
  rewrite Forall_forall in *. intros z Hz.
  apply filter_In in Hz. now apply Hx.
Qed.

(** ** The listing: [db_fetch_all] *)

Lemma db_fetch_all_unfold (s : store) (nf cf : option text) :
  db_fetch_all s nf cf =
  order_by name_leb
    (filter (fun r => name_passes nf r && category_passes cf r) (rows s)).
Proof.
  unfold db_fetch_all, name_passes, category_passes.
  f_equal. apply filter_ext. intros r.
  destruct nf as [f|]; [destruct (truthy f)|];
    (destruct cf as [c|];
     [destruct (truthy c && negb (text_eqb (py_lower c) ALL_SENTINEL))|]);
    simpl; rewrite ?andb_true_r; reflexivity.
Qed.

Lemma name_leb_total (a b : Row) : name_leb a b = false -> name_leb b a = true.
Proof. apply text_leb_total. Qed.

Lemma name_leb_trans (a b c : Row) :
  name_leb a b = true -> name_leb b c = true -> name_leb a c = true.
Proof. apply text_leb_trans. Qed.

(** C1, as stated, fails: with the names "a" (id 1) and "B" (id 2) stored,
    the unfiltered listing is "B", "a" (upper case sorts first in BINARY),
    which is not ascending when case is ignored. *)
Lemma db_fetch_all_not_nocase_ordered :
  rowid_ordered store_a_B
  /\ db_fetch_all store_a_B None None = [ex_named 2 "B"; ex_named 1 "a"]
  /\ ~ StronglySorted nocase_name_then_id (db_fetch_all store_a_B None None).
Proof.
  split; [|split].
  - repeat constructor.
  - reflexivity.
  - intros H. change (db_fetch_all store_a_B None None)
      with [ex_named 2 "B"; ex_named 1 "a"] in H.
    inversion H as [|? ? _ Hall]; subst.
    inversion Hall as [|? ? Hab _]; subst.
    destruct Hab as [Hlt | [Heq _]]; vm_compute in *; discriminate.
Qed.

(** C1 (amended): for every table in rowid order and every combination of
    filters, the listing is ordered by name ascending in the BINARY
    collation (code point by code point, so case-sensitively), rows of equal
    name by ascending id. *)
Theorem db_fetch_all_ordered (s : store) (name_filter category_filter : option text) :
  rowid_ordered s ->
  StronglySorted name_then_id (db_fetch_all s name_filter category_filter).
Proof.
  intros Hs. rewrite db_fetch_all_unfold.
  assert (H : StronglySorted (lex name_leb rowid_before)
                (order_by name_leb
                   (filter (fun r => name_passes name_filter r
                                     && category_passes category_filter r)
                      (rows s)))).
  { apply order_by_lex.
    - exact name_leb_total.
    - exact name_leb_trans.
    - now apply StronglySorted_filter. }
  revert H. generalize (order_by name_leb
                   (filter (fun r => name_passes name_filter r
                                     && category_passes category_filter r)
                      (rows s))).
  intros l H. induction H as [|x l Hl IH Hx]; constructor; [assumption|].
  rewrite Forall_forall in *. intros z Hz.
  destruct (Hx z Hz) as [Hle Hid].
  unfold name_leb in *. apply text_leb_spec in Hle.
  destruct Hle as [Hlt | Heq]; [now left|].
  right. split; [assumption|].
  apply Hid. rewrite Heq. apply text_leb_spec. now right.
Qed.

Lemma db_fetch_all_ordered_witness :
  rowid_ordered store_scenario
  /\ map name (db_fetch_all store_scenario None None)
     = [txt "Idle Loop"; txt "Jump Cycle"; txt "Rig Setup"]
  /\ StronglySorted name_then_id (db_fetch_all store_scenario None None).
Proof.
  split; [|split].
  - repeat constructor.
  - reflexivity.
  - apply (db_fetch_all_ordered store_scenario None None).
    repeat constructor.
Defined.

(** ** The name filter: LIKE between two [%] *)

Lemma prefixb_spec (f n : text) :
  prefixb f n = true <-> exists post, n = f ++ post.
Proof.
  revert n. induction f as [|c f IH]; intros n; simpl.
  - split; [intros _; now exists n | reflexivity].
  - destruct n as [|c2 n].
    + split; [discriminate | intros [post H]; discriminate].
    + rewrite andb_true_iff, N.eqb_eq, IH. split.
      * intros [-> [post ->]]. now exists post.
      * intros [post H]. injection H as -> ->. split; [reflexivity|now exists post].
Qed.

Lemma infixb_spec (f n : text) :
  infixb f n = true <-> exists pre post, n = pre ++ f ++ post.
Proof.
  induction n as [|c2 n IH]; simpl.
  - rewrite orb_false_r, prefixb_spec. split.
    + intros [post H]. now exists [], post.
    + intros [pre [post H]]. destruct pre; [now exists post|discriminate].
  - rewrite orb_true_iff, prefixb_spec, IH. split.
    + intros [[post H] | [pre [post H]]].
      * now exists [], post.
      * exists (c2 :: pre), post. simpl. now rewrite H.
    + intros [[|c pre] [post H]].
      * left. now exists post.
      * right. injection H as _ H. now exists pre, post.
Qed.

Lemma nocase_infix_spec (f n : text) :
  infixb (sql_lower f) (sql_lower n) = true <-> nocase_infix f n.
Proof. apply infixb_spec. Qed.

Lemma like_percent (p s : text) :
  like (PERCENT :: p) s =
  like p s || match s with [] => false | _ :: s' => like (PERCENT :: p) s' end.
Proof. destruct s; reflexivity. Qed.

Lemma like_literal (c : codepoint) (p s : text) :
  c <> PERCENT ->
  like (c :: p) s =
  match s with [] => false | c2 :: s' => like_char c c2 && like p s' end.
Proof.
  intros Hc. simpl. apply N.eqb_neq in Hc. now rewrite Hc.
Qed.

Lemma like_percent_only (s : text) : like [PERCENT] s = true.
Proof.
  induction s as [|c s IH]; [reflexivity|].
  rewrite like_percent. simpl (like [] _). now rewrite IH.
Qed.

Lemma to_lower_idem (c : codepoint) : to_lower (to_lower c) = to_lower c.
Proof.
  unfold to_lower.
  destruct ((65 <=? c) && (c <=? 90))%N eqn:E; [|now rewrite E].
  apply andb_true_iff in E. destruct E as [E1 E2].
  apply N.leb_le in E1, E2.
  destruct ((65 <=? c + 32) && (c + 32 <=? 90))%N eqn:E'; [|reflexivity].
  apply andb_true_iff in E'. destruct E' as [_ E'].
  apply N.leb_le in E'. lia.
Qed.

Lemma to_lower_plain (c : codepoint) : plain c -> plain (to_lower c).
Proof.
  unfold plain, to_lower, PERCENT, UNDERSCORE. intros [H1 H2].
  destruct ((65 <=? c) && (c <=? 90))%N eqn:E; [|auto].
  apply andb_true_iff in E. destruct E as [E1 E2].
  apply N.leb_le in E1, E2. split; lia.
Qed.

Lemma like_char_folded (c c2 : codepoint) :
  like_char (to_lower c) (to_lower c2) =
  ((to_lower c =? to_lower c2) || (to_lower c =? UNDERSCORE))%N.
Proof.
  unfold like_char. rewrite !to_lower_idem.
  destruct (to_lower c =? to_lower c2)%N; simpl; [reflexivity|].
  now rewrite andb_false_r.
Qed.

Lemma like_plain_prefix (f s : text) :
  Forall plain f ->
  like (sql_lower f ++ [PERCENT]) (sql_lower s) =
  prefixb (sql_lower f) (sql_lower s).
Proof.
  intros Hf. revert s. induction Hf as [|c f Hc Hf IH]; intros s.
  - simpl (sql_lower [] ++ _). now rewrite like_percent_only.
  - simpl (sql_lower (c :: f) ++ _).
    rewrite like_literal by apply (to_lower_plain c Hc).
    destruct s as [|c2 s]; [reflexivity|]. simpl.
    change (map to_lower f) with (sql_lower f).
    change (map to_lower s) with (sql_lower s).
    rewrite IH, like_char_folded.
    destruct (to_lower_plain c Hc) as [_ H].
    apply N.eqb_neq in H. rewrite H. now rewrite orb_false_r.
Qed.

(** Outside the two wildcard characters the query is the substring test:
    a filter without [%] and [_] selects the names it occurs in, ASCII case
    ignored. *)
Lemma like_plain_infix (f n : text) :
  Forall plain f ->
  like ([PERCENT] ++ py_lower f ++ [PERCENT]) (sql_lower n) = true
  <-> nocase_infix f n.
Proof.
  intros Hf. rewrite <- nocase_infix_spec.
  change (py_lower f) with (sql_lower f).
  assert (E : like ([PERCENT] ++ sql_lower f ++ [PERCENT]) (sql_lower n)
              = infixb (sql_lower f) (sql_lower n)); [|now rewrite E].
  induction n as [|c n IH]; simpl ([PERCENT] ++ _) in *; rewrite like_percent.
  - rewrite (like_plain_prefix f [] Hf). reflexivity.
  - rewrite (like_plain_prefix f (c :: n) Hf).
    simpl (sql_lower (c :: n)). cbv beta iota.
    change (map to_lower n) with (sql_lower n). rewrite IH.
    reflexivity.
Qed.

Lemma db_fetch_all_In (s : store) (nf cf : option text) (r : Row) :
  In r (db_fetch_all s nf cf) <->
  In r (rows s) /\ name_passes nf r = true /\ category_passes cf r = true.
Proof.
  rewrite db_fetch_all_unfold, order_by_In, filter_In, andb_true_iff.
  reflexivity.
Qed.

(** An empty name filter is no filter. *)
Lemma db_fetch_all_empty_name_filter (s : store) (cf : option text) :
  db_fetch_all s (Some []) cf = db_fetch_all s None cf.
Proof. reflexivity. Qed.

(** A name filter free of [%] and [_] selects by substring, ASCII case
    ignored (for a filter on which [str.lower()] is the ASCII folding). *)
Lemma db_fetch_all_plain_name_filter (s : store) (f : text) (cf : option text)
  (r : Row) :
  f <> [] -> Forall plain f ->
  In r (db_fetch_all s (Some f) cf) <->
  In r (db_fetch_all s None cf) /\ nocase_infix f (name r).
Proof.
  intros Hne Hf. rewrite !db_fetch_all_In. simpl (name_passes None r).
  unfold name_passes. destruct f as [|c f]; [congruence|].
  simpl (truthy _). rewrite (like_plain_infix (c :: f) (name r) Hf).
  tauto.
Qed.

(** The specification's own example. *)
Example dragon_pose_filters :
  map id (db_fetch_all store_dragon (Some (txt "dragon")) None) = [1%Z]
  /\ map id (db_fetch_all store_dragon (Some (txt "DRAGON")) None) = [1%Z]
  /\ map id (db_fetch_all store_dragon (Some (txt "agon po")) None) = [1%Z]
  /\ map id (db_fetch_all store_dragon (Some (txt "dragons")) None) = [].
Proof. repeat split. Qed.

(** C2: the name filter is pasted into the LIKE pattern as it is, so an
    underscore or a percent sign in it is a wildcard: the filter "n_p"
    selects the record named "Dragon Pose", in whose name "n_p" does not
    occur. *)
Theorem db_fetch_all_wildcard_in_filter :
  db_fetch_all store_dragon (Some (txt "n_p")) None
  = [ex_named 1 "Dragon Pose"]
  /\ ~ nocase_infix (txt "n_p") (txt "Dragon Pose").
Proof.
  split; [reflexivity|].
  rewrite <- nocase_infix_spec. vm_compute. discriminate.
Qed.

(** ** The category filter *)

(** C3, as stated, fails: a category filter that is present and is not the
    sentinel ["__all__"] can still select a record of another category,
    namely when it is empty or is the sentinel in another case. *)
Lemma category_filter_not_exact :
  In (ex_row 1 "Jump Cycle" "Animation")
     (db_fetch_all store_animation None (Some (txt "__ALL__")))
  /\ txt "__ALL__" <> ALL_SENTINEL
  /\ category (ex_row 1 "Jump Cycle" "Animation") <> txt "__ALL__"
  /\ In (ex_row 1 "Jump Cycle" "Animation")
        (db_fetch_all store_animation None (Some []))
  /\ category (ex_row 1 "Jump Cycle" "Animation") <> [].
Proof.
  repeat split; try (now left); vm_compute; discriminate.
Qed.

(** C3 (amended): when the category filter is absent, empty, or equal to
    ["__all__"] up to ASCII case, the listing is the one with no category
    filter; otherwise a record is listed exactly when it is listed without
    the category filter and its stored category equals the filter, character
    for character; and the two filters compose with AND. *)
Theorem db_fetch_all_category_filter (s : store) (name_filter : option text) :
  (forall cf, no_category_filter cf ->
     db_fetch_all s name_filter cf = db_fetch_all s name_filter None)
  /\ (forall c, c <> [] -> py_lower c <> ALL_SENTINEL ->
      forall r, In r (db_fetch_all s name_filter (Some c)) <->
                In r (db_fetch_all s name_filter None) /\ category r = c)
  /\ (forall cf r, In r (db_fetch_all s name_filter cf) <->
                   In r (db_fetch_all s name_filter None)
                   /\ In r (db_fetch_all s None cf)).
Proof.
  split; [|split].
  - intros cf [-> | [-> | [c [-> Hc]]]]; try reflexivity.
    unfold db_fetch_all. apply text_eqb_true in Hc. rewrite Hc.
    simpl negb. now rewrite andb_false_r.
  - intros c Hne Hc r. rewrite !db_fetch_all_In.
    simpl (category_passes None r). unfold category_passes.
    apply text_eqb_false in Hc. rewrite Hc.
    destruct c as [|x c]; [congruence|]. simpl (truthy _ && _).
    rewrite text_eqb_true. tauto.
  - intros cf r. rewrite !db_fetch_all_In.
    simpl (category_passes None r). simpl (name_passes None r). tauto.
Qed.

Lemma db_fetch_all_category_filter_witness :
  no_category_filter (Some (txt "__All__"))
  /\ db_fetch_all store_scenario None (Some (txt "__All__"))
     = db_fetch_all store_scenario None None
  /\ txt "Rigging" <> []
  /\ py_lower (txt "Rigging") <> ALL_SENTINEL
  /\ (In (ex_row 3 "Rig Setup" "Rigging")
         (db_fetch_all store_scenario None (Some (txt "Rigging")))
      <-> In (ex_row 3 "Rig Setup" "Rigging")
             (db_fetch_all store_scenario None None)
          /\ category (ex_row 3 "Rig Setup" "Rigging") = txt "Rigging").
Proof.
  pose proof (db_fetch_all_category_filter store_scenario None) as [H1 [H2 _]].
  assert (Hs : no_category_filter (Some (txt "__All__"))).
  { right. right. exists (txt "__All__"). split; reflexivity. }
  assert (Hne : txt "Rigging" <> []) by discriminate.
  assert (Hlow : py_lower (txt "Rigging") <> ALL_SENTINEL) by discriminate.
  split; [exact Hs|]. split; [exact (H1 _ Hs)|].
  split; [exact Hne|]. split; [exact Hlow|].
  exact (H2 (txt "Rigging") Hne Hlow (ex_row 3 "Rig Setup" "Rigging")).
Defined.

(** ** Stripping *)

Section Strip.

Variable f : codepoint -> bool.

Lemma lstrip_by_nil (t : text) : lstrip_by f t = [] <-> forallb f t = true.
Proof.
  induction t as [|c t IH]; simpl; [tauto|].
  destruct (f c); simpl; [exact IH|]. split; discriminate.
Qed.

Lemma lstrip_by_head (t : text) (c : codepoint) (t' : text) :
  lstrip_by f t = c :: t' -> f c = false.
Proof.
  induction t as [|x t IH]; simpl; [discriminate|].
  destruct (f x) eqn:E; [exact IH|]. intros H. now injection H as <- _.
Qed.

(** Left-stripping removes a prefix, so it keeps the last character. *)
Lemma lstrip_by_suffix (t : text) : exists pre, t = pre ++ lstrip_by f t.
Proof.
  induction t as [|x t [pre IH]]; simpl; [now exists []|].
  destruct (f x); [|now exists []].
  exists (x :: pre). simpl. now rewrite <- IH.
Qed.

Lemma lstrip_by_fixed (t : text) :
  (forall c t', t = c :: t' -> f c = false) -> lstrip_by f t = t.
Proof.
  destruct t as [|c t]; [reflexivity|]. intros H. simpl.
  now rewrite (H c t eq_refl).
Qed.

Lemma forallb_rev (t : text) : forallb f (rev t) = forallb f t.
Proof.
  induction t as [|c t IH]; [reflexivity|]. simpl.
  rewrite forallb_app, IH. simpl. rewrite andb_true_r. apply andb_comm.
Qed.

Lemma rstrip_by_nil (t : text) : rstrip_by f t = [] <-> forallb f t = true.
Proof.
  unfold rstrip_by. rewrite <- forallb_rev, <- lstrip_by_nil.
  split; intros H.
  - apply (f_equal (@rev codepoint)) in H. now rewrite rev_involutive in H.
  - now rewrite H.
Qed.

Lemma strip_by_nil (t : text) : strip_by f t = [] <-> forallb f t = true.
Proof.
  unfold strip_by. rewrite rstrip_by_nil. split; intros H.
  - apply lstrip_by_nil.
    destruct (lstrip_by f t) as [|c t'] eqn:E; [reflexivity|].
    apply lstrip_by_head in E. simpl in H. now rewrite E in H.
  - apply lstrip_by_nil in H. now rewrite H.
Qed.

Lemma rstrip_by_last (t : text) (c : codepoint) (t' : text) :
  rstrip_by f t = t' ++ [c] -> f c = false.
Proof.
  unfold rstrip_by. intros H.
  apply (f_equal (@rev codepoint)) in H.
  rewrite rev_involutive, rev_app_distr in H. simpl in H.
  now apply lstrip_by_head in H.
Qed.

(** Right-stripping removes a suffix, so it keeps the first character. *)
Lemma rstrip_by_prefix (t : text) : exists post, t = rstrip_by f t ++ post.
Proof.
  unfold rstrip_by. destruct (lstrip_by_suffix (rev t)) as [pre H].
  exists (rev pre).
  rewrite <- rev_app_distr, <- H. now rewrite rev_involutive.
Qed.

Lemma strip_by_edge_free (t : text) : edge_free f (strip_by f t).
Proof.
  unfold strip_by. split.
  - intros c t' H.
    destruct (rstrip_by_prefix (lstrip_by f t)) as [post Hp].
    rewrite H in Hp. simpl in Hp.
    now apply lstrip_by_head in Hp.
  - intros c t' H. now apply rstrip_by_last in H.
Qed.

Lemma strip_by_fixed (t : text) : edge_free f t -> strip_by f t = t.
Proof.
  intros [Hhd Hlast]. unfold strip_by, rstrip_by.
  rewrite (lstrip_by_fixed t Hhd).
  rewrite lstrip_by_fixed; [apply rev_involutive|].
  intros c t' H. apply (Hlast c (rev t')).
  rewrite <- (rev_involutive t), H. reflexivity.
Qed.

Lemma strip_by_idem (t : text) : strip_by f (strip_by f t) = strip_by f t.
Proof. apply strip_by_fixed, strip_by_edge_free. Qed.

End Strip.

Lemma only_spaces_blank (t : text) : only_spaces t -> blank t.
Proof.
  unfold only_spaces, blank. induction t as [|c t IH]; simpl; [auto|].
  rewrite !andb_true_iff. intros [Hc Ht]. split; [|auto].
  unfold is_blank_char in Hc. apply N.eqb_eq in Hc. now subst c.
Qed.

Lemma stripped_blank_nil (t : text) : py_strip t = t -> blank t -> t = [].
Proof.
  intros Hs Hb. rewrite <- Hs. now apply strip_by_nil.
Qed.

(** ** [db_distinct_categories] *)

Lemma distinct_In (l : list text) (x : text) : In x (distinct l) <-> In x l.
Proof.
  induction l as [|y l IH]; simpl; [tauto|].
  rewrite filter_In, IH, negb_true_iff, text_eqb_false.
  destruct (text_eq_dec y x); tauto.
Qed.

Lemma distinct_NoDup (l : list text) : NoDup (distinct l).
Proof.
  induction l as [|y l IH]; simpl; constructor.
  - rewrite filter_In, negb_true_iff, text_eqb_false. tauto.
  - now apply NoDup_filter.
Qed.

Lemma db_distinct_categories_In (s : store) (c : text) :
  In c (db_distinct_categories s) <->
  (exists r, In r (rows s) /\ category r = c) /\ ~ only_spaces c.
Proof.
  unfold db_distinct_categories.
  rewrite filter_In, order_by_In, distinct_In, in_map_iff.
  split.
  - intros [[r [Hc Hr]] _]. apply filter_In in Hr. destruct Hr as [Hr Ht].
    rewrite negb_true_iff, text_eqb_false in Ht. subst c.
    split; [now exists r|].
    intros Hsp. apply Ht. now apply strip_by_nil.
  - intros [[r [Hr Hc]] Hsp]. subst c. split.
    + exists r. split; [reflexivity|]. apply filter_In. split; [assumption|].
      rewrite negb_true_iff, text_eqb_false.
      intros Ht. apply Hsp. now apply strip_by_nil in Ht.
    + destruct (category r); [|reflexivity]. exfalso. now apply Hsp.
Qed.

Lemma db_distinct_categories_NoDup (s : store) :
  NoDup (db_distinct_categories s).
Proof.
  unfold db_distinct_categories. apply NoDup_filter.
  eapply Permutation_NoDup; [symmetry; apply order_by_perm|].
  apply distinct_NoDup.
Qed.

(** The list is in the order of the NOCASE collation. *)
Lemma db_distinct_categories_sorted (s : store) :
  StronglySorted nocase_order (db_distinct_categories s).
Proof.
  unfold db_distinct_categories. apply StronglySorted_filter.
  eapply StronglySorted_weaken.
  2: apply (@order_by_sorted _ nocase_leb nocase_leb_total nocase_leb_trans).
  intros a b H. now apply nocase_leb_order.
Qed.

(** ** Parameters and records *)

Lemma int64_spec (z : Z) :
  int64 z = true <-> (MIN_INT64 <= z <= MAX_INT64)%Z.
Proof. unfold int64. rewrite andb_true_iff, !Z.leb_le. tauto. Qed.

Lemma utf8_encodable_spec (t : text) :
  utf8_encodable t = true <->
  Forall (fun c => ~ (55296 <= c <= 57343)%N) t.
Proof.
  unfold utf8_encodable. rewrite forallb_forall, Forall_forall.
  split; intros H c Hc; specialize (H c Hc); unfold surrogate in *.
  - rewrite negb_true_iff, andb_false_iff, !N.leb_gt in H. lia.
  - rewrite negb_true_iff, andb_false_iff, !N.leb_gt. lia.
Qed.

Lemma bind_param_spec (p : param) : bind_param p = None <-> sqlite_value p.
Proof.
  destruct p as [z | t]; simpl.
  - rewrite <- int64_spec. destruct (int64 z); split; congruence.
  - rewrite <- utf8_encodable_spec. unfold INT_MAX, SQLITE_MAX_LENGTH.
    destruct (utf8_encodable t); simpl.
    + destruct (N.ltb_spec 2147483647 (utf8_length t)).
      * split; [discriminate|]. intros [_ H']. lia.
      * destruct (N.ltb_spec 1000000000 (utf8_length t)).
        -- split; [discriminate|]. intros [_ H']. lia.
        -- split; [intros _; split; [reflexivity|lia] | reflexivity].
    + split; [discriminate|]. intros [H' _]. discriminate.
Qed.

Lemma bind_parameters_spec (ps : list param) :
  bind_parameters ps = None <-> Forall sqlite_value ps.
Proof.
  induction ps as [|p ps IH]; simpl.
  - split; [constructor|reflexivity].
  - destruct (bind_param p) eqn:E.
    + split; [discriminate|]. intros H. inversion H as [|? ? Hp _]; subst.
      apply bind_param_spec in Hp. congruence.
    + rewrite IH. apply bind_param_spec in E.
      split; [now constructor | intros H; now inversion H].
Qed.

Lemma too_big_spec (ps : list param) :
  too_big ps = false <-> (record_size ps <= SQLITE_MAX_LENGTH)%N.
Proof. unfold too_big. apply N.ltb_ge. Qed.

Lemma storable_spec (ps : list param) :
  storable ps <-> bind_parameters ps = None /\ too_big ps = false.
Proof. unfold storable. now rewrite bind_parameters_spec, too_big_spec. Qed.

Lemma parameters_values (i : Z) (m : mod_dict) :
  values (row_of_mod i m) = parameters m.
Proof. reflexivity. Qed.

(** ** [db_insert] *)

Lemma filter_all (A : Type) (l : list A) : filter (fun _ => true) l = l.
Proof. induction l as [|x l IH]; simpl; congruence. Qed.

Lemma listing_perm (s : store) : Permutation (db_fetch_all s None None) (rows s).
Proof.
  unfold db_fetch_all. simpl. rewrite filter_all. apply order_by_perm.
Qed.

Lemma listing_In (s : store) (r : Row) :
  In r (db_fetch_all s None None) <-> In r (rows s).
Proof.
  split; apply Permutation_in; [|symmetry]; apply listing_perm.
Qed.

Lemma max_id_none (l : list Row) : max_id l = None -> l = [].
Proof.
  destruct l as [|r l]; [reflexivity|]. simpl.
  destruct (max_id l); discriminate.
Qed.

Lemma max_id_bound (l : list Row) (m : Z) :
  max_id l = Some m -> Forall (fun r => (id r <= m)%Z) l.
Proof.
  revert m. induction l as [|r l IH]; intros m; simpl; [discriminate|].
  destruct (max_id l) as [m'|] eqn:E; intros H; injection H as <-.
  - constructor; [lia|].
    eapply Forall_impl; [|apply (IH m' eq_refl)]. simpl. intros. lia.
  - apply max_id_none in E. subst l. repeat constructor. lia.
Qed.

Lemma max_id_in (l : list Row) (m : Z) :
  max_id l = Some m -> exists r, In r l /\ id r = m.
Proof.
  revert m. induction l as [|r l IH]; intros m; simpl; [discriminate|].
  destruct (max_id l) as [m'|] eqn:E; intros H; injection H as <-.
  - destruct (Z.max_spec (id r) m') as [[_ ->] | [_ ->]].
    + destruct (IH m' eq_refl) as [r' [Hr' Hid]]. exists r'. auto.
    + exists r. auto.
  - exists r. auto.
Qed.

(** The rowid handed out is above every rowid in the table and above the
    counter. *)
Lemma new_rowid_fresh (s : store) (i : Z) :
  new_rowid s = Some i ->
  Forall (fun r => (id r < i)%Z) (rows s) /\ (sqlite_sequence s < i)%Z.
Proof.
  unfold new_rowid.
  destruct (max_id (rows s)) as [m|] eqn:E.
  - destruct (m >=? MAX_ROWID)%Z; [discriminate|].
    destruct (sqlite_sequence s =? MAX_ROWID)%Z; [discriminate|].
    intros H. injection H as <-.
    apply max_id_bound in E.
    destruct (Z.ltb_spec (m + 1) (sqlite_sequence s + 1)); split; try lia;
      (eapply Forall_impl; [|exact E]); simpl; intros; lia.
  - apply max_id_none in E. rewrite E.
    destruct (sqlite_sequence s =? MAX_ROWID)%Z; [discriminate|].
    intros H. injection H as <-. split; [constructor|].
    destruct (Z.ltb_spec 1 (sqlite_sequence s + 1)); lia.
Qed.

Lemma new_rowid_some (s : store) :
  has_free_rowid s -> exists i, new_rowid s = Some i.
Proof.
  intros [Hseq Hrows]. unfold new_rowid.
  destruct (max_id (rows s)) as [m|] eqn:E.
  - destruct (max_id_in _ _ E) as [r [Hr Hid]].
    rewrite Forall_forall in Hrows. specialize (Hrows r Hr).
    destruct (Z.geb_spec m MAX_ROWID); [lia|].
    destruct (Z.eqb_spec (sqlite_sequence s) MAX_ROWID); [lia|].
    eauto.
  - destruct (Z.eqb_spec (sqlite_sequence s) MAX_ROWID); [lia|].
    eauto.
Qed.

Lemma db_insert_storable (s : store) (m : mod_dict) :
  storable (parameters m) ->
  db_insert s m =
  match new_rowid s with
  | None => Raised DatabaseFull
  | Some i =>
      Done ({| rows := rows s ++ [row_of_mod i m]; sqlite_sequence := i |}, i)
  end.
Proof.
  intros H. apply storable_spec in H. destruct H as [Hb Ht].
  unfold db_insert. now rewrite Hb, Ht.
Qed.

Lemma db_insert_done (s s' : store) (m : mod_dict) (i : Z) :
  db_insert s m = Done (s', i) ->
  storable (parameters m)
  /\ new_rowid s = Some i
  /\ s' = {| rows := rows s ++ [row_of_mod i m]; sqlite_sequence := i |}.
Proof.
  unfold db_insert. intros H.
  destruct (bind_parameters (parameters m)) eqn:Hb; [discriminate|].
  destruct (too_big (parameters m)) eqn:Ht; [discriminate|].
  destruct (new_rowid s) as [j|]; [|discriminate].
  injection H as <- <-. split; [|split; reflexivity].
  apply storable_spec. now split.
Qed.

(** With values SQLite does not take, [db_insert] raises. *)
Lemma db_insert_raises (s : store) (m : mod_dict) :
  ~ storable (parameters m) -> exists e, db_insert s m = Raised e.
Proof.
  intros H. unfold db_insert.
  destruct (bind_parameters (parameters m)) as [e|] eqn:Hb; [now exists e|].
  destruct (too_big (parameters m)) eqn:Ht; [now exists DataError|].
  exfalso. apply H. apply storable_spec. now split.
Qed.

(** C5, as stated, fails: the category " Animation " is supplied with a
    space at either end, and the one record listed after the insert carries
    "Animation". *)
Lemma db_insert_strips_category :
  exists s',
    db_insert empty_store mod_padded = Done (s', 1%Z)
    /\ db_fetch_all s' None None = [ex_row 1 "Jump Cycle" "Animation"]
    /\ Some (category (ex_row 1 "Jump Cycle" "Animation"))
       <> d_category mod_padded.
Proof.
  eexists. split; [reflexivity|]. split; [reflexivity|].
  vm_compute. discriminate.
Qed.

(** C5 (amended): for a field set whose values SQLite takes (the last_run
    within 64 bits, the texts without surrogate code points, the record
    within the length limit), on a table that still has a rowid to give,
    [db_insert] succeeds, its id is above every id in the table and above
    the counter, and the unfiltered listing afterwards is the one before
    plus exactly one record: it has the returned id, the supplied [name],
    [cover_path] and [bat_path] (the empty string when not supplied), the
    supplied [status] and [last_run] (["Ready"] and 0 when not supplied),
    and the supplied [version], [category], [blend_path] and [work_path]
    with the whitespace at both ends stripped. *)
Theorem db_insert_listing (s : store) (m : mod_dict) :
  has_free_rowid s -> storable (parameters m) ->
  exists s' i r,
    db_insert s m = Done (s', i)
    /\ Forall (fun r0 => (id r0 < i)%Z) (db_fetch_all s None None)
    /\ (sqlite_sequence s < i)%Z
    /\ Permutation (db_fetch_all s' None None) (r :: db_fetch_all s None None)
    /\ id r = i
    /\ name r = get (d_name m) []
    /\ cover_path r = get (d_cover_path m) []
    /\ bat_path r = get (d_bat_path m) []
    /\ status r = get (d_status m) (txt "Ready")
    /\ last_run r = get (d_last_run m) 0%Z
    /\ version r = py_strip (get (d_version m) [])
    /\ category r = py_strip (get (d_category m) [])
    /\ blend_path r = py_strip (get (d_blend_path m) [])
    /\ work_path r = py_strip (get (d_work_path m) []).
Proof.
  intros Hfree Hst. destruct (new_rowid_some s Hfree) as [i Hi].
  destruct (new_rowid_fresh s i Hi) as [Hids Hseq].
  exists {| rows := rows s ++ [row_of_mod i m]; sqlite_sequence := i |}, i,
         (row_of_mod i m).
  rewrite (db_insert_storable s m Hst), Hi.
  split; [reflexivity|]. split; [|split; [assumption|split]].
  - rewrite Forall_forall in *. intros r Hr. apply Hids.
    now apply listing_In.
  - rewrite (listing_perm s), listing_perm. simpl.
    rewrite Permutation_app_comm. reflexivity.
  - repeat split.
Qed.

Lemma db_insert_listing_witness :
  has_free_rowid store_scenario
  /\ storable (parameters mod_padded)
  /\ exists s' i r,
       db_insert store_scenario mod_padded = Done (s', i)
       /\ Forall (fun r0 => (id r0 < i)%Z) (db_fetch_all store_scenario None None)
       /\ (sqlite_sequence store_scenario < i)%Z
       /\ Permutation (db_fetch_all s' None None)
                      (r :: db_fetch_all store_scenario None None)
       /\ id r = i
       /\ name r = get (d_name mod_padded) []
       /\ cover_path r = get (d_cover_path mod_padded) []
       /\ bat_path r = get (d_bat_path mod_padded) []
       /\ status r = get (d_status mod_padded) (txt "Ready")
       /\ last_run r = get (d_last_run mod_padded) 0%Z
       /\ version r = py_strip (get (d_version mod_padded) [])
       /\ category r = py_strip (get (d_category mod_padded) [])
       /\ blend_path r = py_strip (get (d_blend_path mod_padded) [])
       /\ work_path r = py_strip (get (d_work_path mod_padded) []).
Proof.
  assert (H : has_free_rowid store_scenario).
  { split; [reflexivity|]. repeat constructor. }
  assert (Hst : storable (parameters mod_padded)).
  { apply storable_spec. split; reflexivity. }
  split; [exact H|]. split; [exact Hst|].
  exact (db_insert_listing store_scenario mod_padded H Hst).
Defined.

(** ** [db_update_run] *)

Lemma filter_map_commute (A : Type) (p : A -> bool) (g : A -> A) (l : list A) :
  (forall a, p (g a) = p a) -> filter p (map g l) = map g (filter p l).
Proof.
  intros Hp. induction l as [|x l IH]; simpl; [reflexivity|].
  rewrite Hp. destruct (p x); simpl; now rewrite IH.
Qed.

(** A change of rows that keeps [name] and [category] is invisible to the
    conditions and to the sort key of the listing. *)
Lemma db_fetch_all_map (s s' : store) (g : Row -> Row) (nf cf : option text) :
  (forall r, name (g r) = name r) ->
  (forall r, category (g r) = category r) ->
  rows s' = map g (rows s) ->
  db_fetch_all s' nf cf = map g (db_fetch_all s nf cf).
Proof.
  intros Hn Hc Hrows. rewrite !db_fetch_all_unfold, Hrows.
  rewrite filter_map_commute.
  - symmetry. apply order_by_map. intros a b. unfold name_leb.
    now rewrite !Hn.
  - intros r. unfold name_passes, category_passes. now rewrite Hn, Hc.
Qed.

Lemma Forall2_map_r_self (A : Type) (P : A -> A -> Prop) (g : A -> A)
  (l : list A) :
  (forall a, P a (g a)) -> Forall2 P l (map g l).
Proof.
  intros H. induction l as [|x l IH]; simpl; constructor; auto.
Qed.

Lemma run_storable_spec (s : store) (mod_id : Z) (st : text) (ts : Z) :
  run_storable s mod_id st ts <->
  bind_parameters [PText st; PInt ts; PInt mod_id] = None
  /\ existsb (fun r => (id r =? mod_id)%Z
                        && too_big (values (set_run st ts r))) (rows s)
     = false.
Proof.
  unfold run_storable. rewrite bind_parameters_spec. split.
  - intros [Hb Hsz]. split; [assumption|].
    apply not_true_is_false. intros H. apply existsb_exists in H.
    destruct H as [r [Hr H]]. apply andb_true_iff in H.
    destruct H as [Hid Hbig]. apply Z.eqb_eq in Hid.
    specialize (Hsz r Hr Hid). apply too_big_spec in Hsz. congruence.
  - intros [Hb Hex]. split; [assumption|]. intros r Hr Hid.
    apply too_big_spec.
    destruct (too_big (values (set_run st ts r))) eqn:Hbig; [|reflexivity].
    rewrite <- Hex. symmetry. apply existsb_exists. exists r.
    split; [assumption|]. apply Z.eqb_eq in Hid. now rewrite Hid, Hbig.
Qed.

Lemma db_update_run_storable (s : store) (mod_id : Z) (st : text) (ts : Z) :
  run_storable s mod_id st ts ->
  db_update_run s mod_id st ts =
  Done {| rows := map (fun r => if (id r =? mod_id)%Z then set_run st ts r
                                else r) (rows s);
          sqlite_sequence := sqlite_sequence s |}.
Proof.
  intros H. apply run_storable_spec in H. destruct H as [Hb Hex].
  unfold db_update_run. now rewrite Hb, Hex.
Qed.

Lemma db_update_run_done (s s' : store) (mod_id : Z) (st : text) (ts : Z) :
  db_update_run s mod_id st ts = Done s' ->
  run_storable s mod_id st ts
  /\ s' = {| rows := map (fun r => if (id r =? mod_id)%Z then set_run st ts r
                                   else r) (rows s);
             sqlite_sequence := sqlite_sequence s |}.
Proof.
  unfold db_update_run. intros H.
  destruct (bind_parameters [PText st; PInt ts; PInt mod_id]) eqn:Hb;
    [discriminate|].
  destruct (existsb _ (rows s)) eqn:Hex; [discriminate|].
  injection H as <-. split; [|reflexivity].
  apply run_storable_spec. now split.
Qed.

Lemma db_update_run_raises (s : store) (mod_id : Z) (st : text) (ts : Z) :
  ~ run_storable s mod_id st ts ->
  exists e, db_update_run s mod_id st ts = Raised e.
Proof.
  intros H. unfold db_update_run.
  destruct (bind_parameters [PText st; PInt ts; PInt mod_id]) as [e|] eqn:Hb;
    [now exists e|].
  destruct (existsb _ (rows s)) eqn:Hex; [now exists DataError|].
  exfalso. apply H. apply run_storable_spec. now split.
Qed.

(** C6: when SQLite takes the status, the timestamp and the id (and the
    record they make of a row of that id), [db_update_run] returns; it
    leaves the counter and the number and order of the rows alone; each row
    keeps its id, name, cover_path, bat_path, version, category, blend_path
    and work_path; a row whose id is the given one gets the given status
    and last_run, every other row is unchanged; and the same holds row by
    row between any listing before and the same listing after.  Otherwise
    it raises, and has written nothing. *)
Theorem db_update_run_frame (s : store) (mod_id : Z) (st : text) (ts : Z) :
  (run_storable s mod_id st ts ->
   exists s',
     db_update_run s mod_id st ts = Done s'
     /\ sqlite_sequence s' = sqlite_sequence s
     /\ Forall2 (run_frame mod_id st ts) (rows s) (rows s')
     /\ forall nf cf,
          Forall2 (run_frame mod_id st ts)
                  (db_fetch_all s nf cf) (db_fetch_all s' nf cf))
  /\ (~ run_storable s mod_id st ts ->
      exists e, db_update_run s mod_id st ts = Raised e).
Proof.
  split; [|apply db_update_run_raises].
  intros Hst.
  set (g := fun r => if (id r =? mod_id)%Z then set_run st ts r else r).
  assert (Hg : forall r, run_frame mod_id st ts r (g r)).
  { intros r. unfold g, run_frame.
    destruct (Z.eqb_spec (id r) mod_id); simpl; repeat split; tauto. }
  set (s' := {| rows := map g (rows s);
                sqlite_sequence := sqlite_sequence s |}).
  exists s'. split; [exact (db_update_run_storable s mod_id st ts Hst)|].
  split; [reflexivity|]. split.
  - simpl. now apply Forall2_map_r_self.
  - intros nf cf.
    rewrite (db_fetch_all_map s s' g nf cf).
    + now apply Forall2_map_r_self.
    + intros r. unfold g. now destruct (id r =? mod_id)%Z.
    + intros r. unfold g. now destruct (id r =? mod_id)%Z.
    + reflexivity.
Qed.

Lemma db_update_run_frame_witness :
  run_storable store_scenario 2 (txt "Running") 1700000000
  /\ ~ run_storable store_scenario 2 (txt "Running") 9223372036854775808
  /\ (exists s',
        db_update_run store_scenario 2 (txt "Running") 1700000000 = Done s'
        /\ map status (rows s') = [READY; txt "Running"; READY]
        /\ map last_run (rows s') = [0; 1700000000; 0]%Z
        /\ Forall2 (run_frame 2 (txt "Running") 1700000000)
                   (rows store_scenario) (rows s'))
  /\ exists e,
       db_update_run store_scenario 2 (txt "Running") 9223372036854775808
       = Raised e.
Proof.
  pose proof (db_update_run_frame store_scenario 2 (txt "Running") 1700000000)
    as [H1 _].
  pose proof (db_update_run_frame store_scenario 2 (txt "Running")
                9223372036854775808) as [_ H2].
  assert (Hst : run_storable store_scenario 2 (txt "Running") 1700000000).
  { apply run_storable_spec. split; reflexivity. }
  assert (Hno : ~ run_storable store_scenario 2 (txt "Running")
                  9223372036854775808).
  { intros H. apply run_storable_spec in H. destruct H as [H _].
    discriminate H. }
  split; [exact Hst|]. split; [exact Hno|]. split; [|exact (H2 Hno)].
  destruct (H1 Hst) as (s' & E & _ & Hf & _).
  exists s'. split; [exact E|].
  assert (Es : s' = {| rows := map (fun r => if (id r =? 2)%Z
                                            then set_run (txt "Running")
                                                   1700000000 r
                                            else r) (rows store_scenario);
                       sqlite_sequence := sqlite_sequence store_scenario |}).
  { apply (db_update_run_done store_scenario). exact E. }
  split; [rewrite Es; reflexivity|]. split; [rewrite Es; reflexivity|].
  exact Hf.
Defined.

(** ** [db_delete] *)

Lemma filter_comm (A : Type) (p q : A -> bool) (l : list A) :
  filter p (filter q l) = filter q (filter p l).
Proof.
  induction l as [|x l IH]; simpl; [reflexivity|].
  destruct (p x) eqn:Px; destruct (q x) eqn:Qx; simpl;
    rewrite ?Px, ?Qx, IH; reflexivity.
Qed.

Lemma filter_id (A : Type) (p : A -> bool) (l : list A) :
  (forall x, In x l -> p x = true) -> filter p l = l.
Proof.
  induction l as [|x l IH]; simpl; intros H; [reflexivity|].
  rewrite (H x (or_introl eq_refl)). f_equal. apply IH. auto.
Qed.

Lemma db_delete_value (s : store) (mod_id : Z) :
  sqlite_value (PInt mod_id) ->
  db_delete s mod_id =
  Done {| rows := filter (fun r => negb (id r =? mod_id)%Z) (rows s);
          sqlite_sequence := sqlite_sequence s |}.
Proof.
  intros H. apply int64_spec in H. unfold db_delete. simpl. now rewrite H.
Qed.

Lemma db_delete_done (s s' : store) (mod_id : Z) :
  db_delete s mod_id = Done s' ->
  sqlite_value (PInt mod_id)
  /\ s' = {| rows := filter (fun r => negb (id r =? mod_id)%Z) (rows s);
             sqlite_sequence := sqlite_sequence s |}.
Proof.
  unfold db_delete. simpl. destruct (int64 mod_id) eqn:E; [|discriminate].
  intros H. injection H as <-. split; [|reflexivity]. now apply int64_spec.
Qed.

Lemma db_delete_raises (s : store) (mod_id : Z) :
  ~ sqlite_value (PInt mod_id) -> db_delete s mod_id = Raised OverflowError.
Proof.
  intros H. unfold db_delete. simpl.
  destruct (int64 mod_id) eqn:E; [|reflexivity].
  exfalso. apply H. now apply int64_spec.
Qed.

(** C7, as stated, fails: 2^63 is the id of no record, and deleting it
    raises [OverflowError]. *)
Lemma db_delete_out_of_range :
  (forall r, In r (rows store_scenario) -> id r <> 9223372036854775808%Z)
  /\ db_delete store_scenario 9223372036854775808 = Raised OverflowError.
Proof.
  split; [|reflexivity].
  intros r [<- | [<- | [<- | []]]]; discriminate.
Qed.

(** C7 (amended): for an id within SQLite's 64-bit integers [db_delete]
    returns; afterwards no listing, whatever its filters, has a record of
    that id; every listing is the one before with the records of that id
    taken out, the others in place and unchanged; deleting an id no record
    has leaves the store as it is, and so does deleting the same id again.
    For any other id it raises [OverflowError]. *)
Theorem db_delete_spec (s : store) (mod_id : Z) :
  (sqlite_value (PInt mod_id) ->
   exists s',
     db_delete s mod_id = Done s'
     /\ (forall nf cf r, In r (db_fetch_all s' nf cf) -> id r <> mod_id)
     /\ (forall nf cf,
           db_fetch_all s' nf cf =
           filter (fun r => negb (id r =? mod_id)%Z) (db_fetch_all s nf cf))
     /\ ((forall r, In r (rows s) -> id r <> mod_id) -> s' = s)
     /\ db_delete s' mod_id = Done s')
  /\ (~ sqlite_value (PInt mod_id) ->
      db_delete s mod_id = Raised OverflowError).
Proof.
  split; [|apply db_delete_raises].
  intros Hid. eexists. split; [exact (db_delete_value s mod_id Hid)|].
  assert (H : forall nf cf,
          db_fetch_all
            {| rows := filter (fun r => negb (id r =? mod_id)%Z) (rows s);
               sqlite_sequence := sqlite_sequence s |} nf cf =
          filter (fun r => negb (id r =? mod_id)%Z) (db_fetch_all s nf cf)).
  { intros nf cf. rewrite !db_fetch_all_unfold. simpl rows.
    rewrite filter_comm.
    symmetry. apply filter_order_by.
    - exact name_leb_total.
    - exact name_leb_trans. }
  split; [|split; [exact H|split]].
  - intros nf cf r Hr. rewrite H in Hr. apply filter_In in Hr.
    destruct Hr as [_ Hr]. rewrite negb_true_iff in Hr.
    now apply Z.eqb_neq.
  - intros Hno. destruct s as [l q]. simpl in *. f_equal.
    apply filter_id. intros r Hr. rewrite negb_true_iff.
    apply Z.eqb_neq. auto.
  - rewrite (db_delete_value _ mod_id Hid). simpl. f_equal. f_equal.
    apply filter_id. intros r Hr. apply filter_In in Hr. tauto.
Qed.

Lemma db_delete_spec_witness :
  sqlite_value (PInt 7)
  /\ (forall r, In r (rows store_scenario) -> id r <> 7%Z)
  /\ db_delete store_scenario 7 = Done store_scenario
  /\ ~ sqlite_value (PInt 9223372036854775808)
  /\ db_delete store_scenario 9223372036854775808 = Raised OverflowError.
Proof.
  assert (Hid : sqlite_value (PInt 7)) by (now apply int64_spec).
  assert (Hno : forall r, In r (rows store_scenario) -> id r <> 7%Z).
  { intros r [<- | [<- | [<- | []]]]; discriminate. }
  assert (Hbig : ~ sqlite_value (PInt 9223372036854775808)).
  { intros H. apply int64_spec in H. discriminate H. }
  split; [exact Hid|]. split; [exact Hno|].
  destruct (db_delete_spec store_scenario 7) as [H1 _].
  destruct (db_delete_spec store_scenario 9223372036854775808) as [_ H2].
  split; [|split; [exact Hbig | exact (H2 Hbig)]].
  destruct (H1 Hid) as (s' & E & _ & _ & Hsame & _).
  rewrite E. f_equal. exact (Hsame Hno).
Defined.

(** ** Records without a name: [db_insert] and [add_mod] *)

(** C9, as stated, fails: [db_insert] checks nothing; given a field set
    with no name it raises no error and adds a record whose name is the
    empty string. *)
Lemma db_insert_accepts_missing_name :
  d_name mod_without_name = None
  /\ exists s',
       db_insert empty_store mod_without_name = Done (s', 1%Z)
       /\ db_fetch_all s' None None = [ex_row 1 EmptyString "Rigging"]
       /\ rows s' <> rows empty_store.
Proof.
  split; [reflexivity|]. eexists. split; [reflexivity|].
  split; [reflexivity|]. simpl. discriminate.
Qed.

(** C9 (amended): [db_insert] itself accepts a field set whose name is
    missing or empty: when the table has a rowid to give and SQLite takes
    the values, as it does those of any other field set, it adds a record
    with the empty name and raises nothing.  The name is checked by the
    caller [add_mod], which calls [db_insert] only when the entered name,
    stripped, is non-empty: for a blank name it raises nothing and leaves
    the store unchanged, and a record it does add has that non-empty
    stripped name. *)
Theorem add_mod_requires_name (s : store) (accepted : bool) (dlg : ModEditorDialog)
  (m : mod_dict) :
  (blank (name_edit dlg) -> add_mod s accepted dlg = Done s)
  /\ (forall s', add_mod s accepted dlg = Done s' ->
        s' = s
        \/ exists r, rows s' = rows s ++ [r]
                     /\ name r = py_strip (name_edit dlg) /\ name r <> [])
  /\ (has_free_rowid s -> storable (parameters m) ->
      get (d_name m) [] = [] ->
      exists s' i r,
        db_insert s m = Done (s', i)
        /\ rows s' = rows s ++ [r] /\ id r = i /\ name r = []).
Proof.
  split; [|split].
  - intros Hb. unfold add_mod. destruct accepted; [|reflexivity].
    simpl (get _ _). apply strip_by_nil in Hb. unfold py_strip.
    now rewrite Hb.
  - intros s'. unfold add_mod. destruct accepted.
    2:{ intros H. injection H as <-. now left. }
    simpl (get _ _).
    destruct (py_strip (name_edit dlg)) as [|c t] eqn:E; simpl (truthy _).
    + intros H. injection H as <-. now left.
    + destruct (db_insert s (get_value dlg)) as [[s1 i]|e] eqn:Hins;
        [|discriminate].
      intros H. injection H as <-. right.
      apply db_insert_done in Hins. destruct Hins as (_ & _ & ->).
      exists (row_of_mod i (get_value dlg)). simpl.
      rewrite E. repeat split. discriminate.
  - intros Hfree Hst Hname. destruct (new_rowid_some s Hfree) as [i Hi].
    exists {| rows := rows s ++ [row_of_mod i m]; sqlite_sequence := i |}, i,
           (row_of_mod i m).
    rewrite (db_insert_storable s m Hst), Hi. repeat split. exact Hname.
Qed.

Lemma add_mod_requires_name_witness :
  blank (name_edit dialog_blank_name)
  /\ add_mod store_scenario true dialog_blank_name = Done store_scenario
  /\ has_free_rowid store_scenario
  /\ storable (parameters mod_without_name)
  /\ exists s' i r,
       db_insert store_scenario mod_without_name = Done (s', i)
       /\ rows s' = rows store_scenario ++ [r] /\ id r = i /\ name r = [].
Proof.
  pose proof (add_mod_requires_name store_scenario true dialog_blank_name
                mod_without_name) as [H1 [_ H3]].
  assert (Hb : blank (name_edit dialog_blank_name)) by reflexivity.
  assert (Hf : has_free_rowid store_scenario).
  { split; [reflexivity|]. repeat constructor. }
  assert (Hst : storable (parameters mod_without_name)).
  { apply storable_spec. split; reflexivity. }
  split; [exact Hb|]. split; [exact (H1 Hb)|]. split; [exact Hf|].
  split; [exact Hst|].
  exact (H3 Hf Hst eq_refl).
Defined.

(** ** [db_update] *)

Lemma db_update_done (s s' : store) (mod_id : Z) (m : mod_dict) :
  db_update s mod_id m = Done s' ->
  Forall sqlite_value (parameters m ++ [PInt mod_id])
  /\ s' = {| rows := map (fun r => if (id r =? mod_id)%Z
                                   then row_of_mod (id r) m else r) (rows s);
             sqlite_sequence := sqlite_sequence s |}.
Proof.
  unfold db_update. intros H.
  destruct (bind_parameters (parameters m ++ [PInt mod_id])) eqn:Hb;
    [discriminate|].
  destruct (existsb _ (rows s) && too_big (parameters m)); [discriminate|].
  injection H as <-. split; [|reflexivity]. now apply bind_parameters_spec.
Qed.

(** An update that returns and finds a row has written a record SQLite
    takes. *)
Lemma db_update_done_storable (s s' : store) (mod_id : Z) (m : mod_dict)
  (r : Row) :
  db_update s mod_id m = Done s' -> In r (rows s) -> id r = mod_id ->
  storable (parameters m).
Proof.
  unfold db_update. intros H Hr Hid.
  destruct (bind_parameters (parameters m ++ [PInt mod_id])) eqn:Hb;
    [discriminate|].
  assert (Hex : existsb (fun r => (id r =? mod_id)%Z) (rows s) = true).
  { apply existsb_exists. exists r. split; [assumption|].
    now apply Z.eqb_eq. }
  rewrite Hex in H. simpl in H.
  destruct (too_big (parameters m)) eqn:Ht; [discriminate|].
  apply bind_parameters_spec, Forall_app in Hb.
  split; [tauto | now apply too_big_spec].
Qed.

Lemma db_update_storable (s : store) (mod_id : Z) (m : mod_dict) :
  sqlite_value (PInt mod_id) -> storable (parameters m) ->
  db_update s mod_id m =
  Done {| rows := map (fun r => if (id r =? mod_id)%Z
                                then row_of_mod (id r) m else r) (rows s);
          sqlite_sequence := sqlite_sequence s |}.
Proof.
  intros Hid [Hv Hsz]. unfold db_update.
  assert (Hb : bind_parameters (parameters m ++ [PInt mod_id]) = None).
  { apply bind_parameters_spec. apply Forall_app. split; [assumption|].
    constructor; [exact Hid | constructor]. }
  apply too_big_spec in Hsz. now rewrite Hb, Hsz, andb_false_r.
Qed.

(** Without a row of that id nothing is written, so only the binding can
    fail. *)
Lemma db_update_absent (s : store) (mod_id : Z) (m : mod_dict) :
  (forall r, In r (rows s) -> id r <> mod_id) ->
  Forall sqlite_value (parameters m ++ [PInt mod_id]) ->
  db_update s mod_id m = Done s.
Proof.
  intros Hno Hv. unfold db_update.
  apply bind_parameters_spec in Hv. rewrite Hv.
  assert (Hex : existsb (fun r => (id r =? mod_id)%Z) (rows s) = false).
  { apply not_true_is_false. intros H. apply existsb_exists in H.
    destruct H as [r [Hr H]]. apply Z.eqb_eq in H. now apply (Hno r). }
  rewrite Hex. simpl. destruct s as [l q]. simpl in *.
  f_equal. f_equal. rewrite <- (map_id l) at 2. apply map_ext_in.
  intros r Hr. apply Hno in Hr. apply Z.eqb_neq in Hr. now rewrite Hr.
Qed.

(** ** Invariants of the writing operations *)

Lemma edge_free_nil (f : codepoint -> bool) : edge_free f [].
Proof.
  split; intros c t' H; [discriminate|]. now destruct t'.
Qed.

Lemma backfilled_trimmed (r : Row) : backfilled r -> trimmed r.
Proof.
  intros (Hv & Hc & Hb & Hw). unfold trimmed.
  rewrite Hv, Hc, Hb, Hw. repeat split; apply edge_free_nil.
Qed.

Lemma row_of_mod_trimmed (i : Z) (m : mod_dict) : trimmed (row_of_mod i m).
Proof. repeat split; apply strip_by_edge_free. Qed.

Lemma set_run_trimmed (st : text) (ts : Z) (r : Row) :
  trimmed r -> trimmed (set_run st ts r).
Proof. exact (fun H => H). Qed.

Lemma step_trimmed (s s' : store) :
  step s s' -> Forall trimmed (rows s) -> Forall trimmed (rows s').
Proof.
  intros [s0 s1 m i H | s0 s1 mod_id m H | s0 s1 mod_id H
         | s0 s1 mod_id st ts H] IH.
  - apply db_insert_done in H. destruct H as (_ & _ & ->).
    simpl. apply Forall_app. split; [assumption|].
    constructor; [apply row_of_mod_trimmed | constructor].
  - apply db_update_done in H. destruct H as [_ ->].
    simpl. rewrite Forall_forall in *.
    intros r' Hr'. apply in_map_iff in Hr'. destruct Hr' as [r [<- Hr]].
    destruct (id r =? mod_id)%Z; [apply row_of_mod_trimmed | auto].
  - apply db_delete_done in H. destruct H as [_ ->].
    simpl. rewrite Forall_forall in *.
    intros r Hr. apply filter_In in Hr. apply IH. tauto.
  - apply db_update_run_done in H. destruct H as [_ ->].
    simpl. rewrite Forall_forall in *.
    intros r' Hr'. apply in_map_iff in Hr'. destruct Hr' as [r [<- Hr]].
    destruct (id r =? mod_id)%Z; [apply set_run_trimmed|]; auto.
Qed.

Lemma reachable_trimmed (s : store) : reachable s -> Forall trimmed (rows s).
Proof.
  induction 1 as [s _ H | s s' _ IH H].
  - eapply Forall_impl; [|exact H]. exact backfilled_trimmed.
  - exact (step_trimmed s s' H IH).
Qed.

(** Every reachable store has its categories stripped. *)
Lemma reachable_categories_stripped (s : store) :
  reachable s -> categories_stripped s.
Proof.
  intros H. apply reachable_trimmed in H. unfold categories_stripped.
  eapply Forall_impl; [|exact H].
  intros r (_ & Hc & _). now apply strip_by_fixed.
Qed.

(** The writing operations keep the table in rowid order with unique ids:
    [db_insert] appends a row whose id is above all others, the updates keep
    every id, [db_delete] only removes rows. *)
Lemma StronglySorted_snoc (A : Type) (R : A -> A -> Prop) (l : list A) (x : A) :
  StronglySorted R l -> Forall (fun y => R y x) l ->
  StronglySorted R (l ++ [x]).
Proof.
  induction 1 as [|y l Hl IH Hy]; intros Hx; simpl.
  - repeat constructor.
  - inversion Hx as [|? ? Hyx Hlx]; subst.
    constructor; [now apply IH|].
    apply Forall_app. split; [assumption|]. now repeat constructor.
Qed.

Lemma rowid_ordered_map (g : Row -> Row) (l : list Row) :
  (forall r, id (g r) = id r) ->
  StronglySorted rowid_before l -> StronglySorted rowid_before (map g l).
Proof.
  intros Hg. induction 1 as [|x l Hl IH Hx]; simpl; constructor;
    [assumption|].
  rewrite Forall_forall in *. intros y Hy.
  apply in_map_iff in Hy. destruct Hy as [z [<- Hz]].
  unfold rowid_before. rewrite !Hg. now apply Hx.
Qed.

Lemma step_rowid_ordered (s s' : store) :
  step s s' -> rowid_ordered s -> rowid_ordered s'.
Proof.
  unfold rowid_ordered.
  intros [s0 s1 m i H | s0 s1 mod_id m H | s0 s1 mod_id H
         | s0 s1 mod_id st ts H] IH.
  - apply db_insert_done in H. destruct H as (_ & E & ->). simpl.
    apply StronglySorted_snoc; [assumption|].
    exact (proj1 (new_rowid_fresh s0 i E)).
  - apply db_update_done in H. destruct H as [_ ->].
    simpl. apply rowid_ordered_map; [|assumption].
    intros r. now destruct (id r =? mod_id)%Z.
  - apply db_delete_done in H. destruct H as [_ ->].
    simpl. now apply StronglySorted_filter.
  - apply db_update_run_done in H. destruct H as [_ ->].
    simpl. apply rowid_ordered_map; [|assumption].
    intros r. now destruct (id r =? mod_id)%Z.
Qed.

Lemma reachable_rowid_ordered (s : store) : reachable s -> rowid_ordered s.
Proof.
  induction 1 as [s H _ | s s' _ IH H]; [exact H|].
  exact (step_rowid_ordered s s' H IH).
Qed.

(** An id that was handed out and whose row is gone never comes back:
    AUTOINCREMENT hands out ids above the counter only, and the other
    operations introduce no id. *)
Lemma step_retired (i : Z) (s s' : store) :
  step s s' -> retired i s -> retired i s'.
Proof.
  intros [s0 s1 m j H | s0 s1 mod_id m H | s0 s1 mod_id H
         | s0 s1 mod_id st ts H] [Hseq Hno].
  - apply db_insert_done in H. destruct H as (_ & E & ->).
    destruct (new_rowid_fresh s0 j E) as [_ Hk].
    split; simpl; [lia|].
    intros r Hr. apply in_app_or in Hr. destruct Hr as [Hr | [<- | []]].
    + now apply Hno.
    + simpl. lia.
  - apply db_update_done in H. destruct H as [_ ->].
    split; [exact Hseq|]. simpl.
    intros r' Hr'. apply in_map_iff in Hr'. destruct Hr' as [r [<- Hr]].
    destruct (id r =? mod_id)%Z; simpl; now apply Hno.
  - apply db_delete_done in H. destruct H as [_ ->].
    split; [exact Hseq|]. simpl.
    intros r Hr. apply filter_In in Hr. apply Hno. tauto.
  - apply db_update_run_done in H. destruct H as [_ ->].
    split; [exact Hseq|]. simpl.
    intros r' Hr'. apply in_map_iff in Hr'. destruct Hr' as [r [<- Hr]].
    destruct (id r =? mod_id)%Z; simpl; now apply Hno.
Qed.

(** X3: once an id that was handed out has been deleted, no listing shows
    it again, whatever is inserted, updated or deleted afterwards. *)
Lemma deleted_id_never_returns (s s1 s2 : store) (mod_id : Z) :
  (mod_id <= sqlite_sequence s)%Z ->
  db_delete s mod_id = Done s1 -> steps s1 s2 ->
  forall nf cf r, In r (db_fetch_all s2 nf cf) -> id r <> mod_id.
Proof.
  intros Hseq Hdel Hsteps.
  assert (H : retired mod_id s2).
  { induction Hsteps as [s1 | s1 s2 s3 _ IH Hstep].
    - apply db_delete_done in Hdel. destruct Hdel as [_ ->].
      split; [exact Hseq|]. simpl.
      intros r Hr. apply filter_In in Hr. destruct Hr as [_ Hr].
      rewrite negb_true_iff in Hr. now apply Z.eqb_neq.
    - exact (step_retired mod_id s2 s3 Hstep (IH Hdel)). }
  intros nf cf r Hr. apply db_fetch_all_In in Hr. now apply H.
Qed.

(** ** What [db_insert] and [db_update] persist *)

(** C10: when [db_insert] returns it has added one row, which holds the
    supplied field set with version, category, blend_path and work_path
    stripped and name, cover_path, bat_path, status and last_run as
    supplied; when [db_update] returns, every row of the given id holds the
    supplied field set in the same way, keeping its id, and the other rows
    are as they were; the two return whenever SQLite takes the values (and,
    for [db_insert], the table has a rowid to give); hence in every
    reachable store no row has whitespace at either end of its version,
    category, blend_path or work_path. *)
Theorem stripped_fields_persisted (s : store) (mod_id : Z) (m : mod_dict) :
  (forall s' i,
     db_insert s m = Done (s', i) ->
     exists r, rows s' = rows s ++ [r] /\ id r = i /\ persists m r)
  /\ (has_free_rowid s -> storable (parameters m) ->
      exists s' i, db_insert s m = Done (s', i))
  /\ (forall s',
        db_update s mod_id m = Done s' ->
        Forall2 (fun r r' =>
                   id r' = id r
                   /\ (id r = mod_id -> persists m r')
                   /\ (id r <> mod_id -> r' = r))
                (rows s) (rows s'))
  /\ (sqlite_value (PInt mod_id) -> storable (parameters m) ->
      exists s', db_update s mod_id m = Done s')
  /\ (reachable s -> Forall trimmed (rows s)).
Proof.
  split; [|split; [|split; [|split]]].
  - intros s' i H. apply db_insert_done in H. destruct H as (_ & _ & ->).
    exists (row_of_mod i m). repeat split.
  - intros Hfree Hst. destruct (new_rowid_some s Hfree) as [i Hi].
    rewrite (db_insert_storable s m Hst), Hi. eauto.
  - intros s' H. apply db_update_done in H. destruct H as [_ ->]. simpl.
    apply Forall2_map_r_self. intros r.
    destruct (Z.eqb_spec (id r) mod_id); repeat split; tauto.
  - intros Hid Hst. rewrite (db_update_storable s mod_id m Hid Hst). eauto.
  - apply reachable_trimmed.
Qed.

Lemma store_scenario_reachable : reachable store_scenario.
Proof.
  apply (reach_step
           {| rows := [ex_row 1 "Jump Cycle" "Animation";
                       ex_row 2 "Idle Loop" "Animation"];
              sqlite_sequence := 2 |});
    [|now apply (step_insert _ _ (mod_named "Rig Setup" "Rigging") 3)].
  apply (reach_step
           {| rows := [ex_row 1 "Jump Cycle" "Animation"];
              sqlite_sequence := 1 |});
    [|now apply (step_insert _ _ (mod_named "Idle Loop" "Animation") 2)].
  apply (reach_step empty_store);
    [|now apply (step_insert _ _ (mod_named "Jump Cycle" "Animation") 1)].
  apply reach_init; constructor.
Qed.

Lemma stripped_fields_persisted_witness :
  has_free_rowid store_scenario
  /\ storable (parameters mod_padded)
  /\ sqlite_value (PInt 2)
  /\ reachable store_scenario
  /\ (exists s' i,
        db_insert store_scenario mod_padded = Done (s', i)
        /\ exists r, rows s' = rows store_scenario ++ [r] /\ id r = i
                     /\ persists mod_padded r)
  /\ (exists s',
        db_update store_scenario 2 mod_padded = Done s'
        /\ map category (rows s')
           = [txt "Animation"; txt "Animation"; txt "Rigging"])
  /\ Forall trimmed (rows store_scenario).
Proof.
  pose proof (stripped_fields_persisted store_scenario 2 mod_padded)
    as (H1 & H2 & _ & H4 & H5).
  assert (Hf : has_free_rowid store_scenario).
  { split; [reflexivity|]. repeat constructor. }
  assert (Hst : storable (parameters mod_padded)).
  { apply storable_spec. split; reflexivity. }
  assert (Hid : sqlite_value (PInt 2)) by (now apply int64_spec).
  split; [exact Hf|]. split; [exact Hst|]. split; [exact Hid|].
  split; [exact store_scenario_reachable|].
  split; [|split; [|exact (H5 store_scenario_reachable)]].
  - destruct (H2 Hf Hst) as (s' & i & E). exists s', i.
    split; [exact E | exact (H1 s' i E)].
  - destruct (H4 Hid Hst) as (s' & E). exists s'. split; [exact E|].
    apply db_update_done in E. destruct E as [_ ->]. reflexivity.
Defined.

(** The end-to-end scenario: three creates on a new table, then the
    categories in use and the listing of one category. *)
Example scenario :
  exists s1 s2 s3,
    db_insert empty_store (mod_named "Jump Cycle" "Animation") = Done (s1, 1%Z)
    /\ db_insert s1 (mod_named "Idle Loop" "Animation") = Done (s2, 2%Z)
    /\ db_insert s2 (mod_named "Rig Setup" "Rigging") = Done (s3, 3%Z)
    /\ db_distinct_categories s3 = [txt "Animation"; txt "Rigging"]
    /\ map name (db_fetch_all s3 None (Some (txt "Animation")))
       = [txt "Idle Loop"; txt "Jump Cycle"].
Proof.
  do 3 eexists. repeat split.
Qed.

(** ** The categories of a reachable store *)

Lemma store_nul_reachable : reachable store_nul.
Proof.
  apply (reach_step
           {| rows := [row_in 1 "Rig" cat_a0c]; sqlite_sequence := 1 |});
    [|now apply (step_insert _ _ (mod_in "Pose" cat_a0b) 2)].
  apply (reach_step empty_store);
    [|now apply (step_insert _ _ (mod_in "Rig" cat_a0c) 1)].
  apply reach_init; constructor.
Qed.

(** C4: the categories "a", U+0000, "c" and "a", U+0000, "b", written by
    two calls of [db_insert] in that order, come back in that order, the
    first above the second in any alphabetical order: NOCASE does not look
    past a U+0000, finds the two of the same length, and the sort leaves
    them as the scan found them. *)
Theorem db_distinct_categories_nul :
  reachable store_nul
  /\ db_distinct_categories store_nul = [cat_a0c; cat_a0b]
  /\ ~ StronglySorted nocase_le (db_distinct_categories store_nul).
Proof.
  split; [exact store_nul_reachable|]. split; [reflexivity|].
  change (db_distinct_categories store_nul) with [cat_a0c; cat_a0b].
  intros H. inversion H as [|? ? _ Hall]; subst.
  inversion Hall as [|? ? Hle _]; subst.
  apply Hle. reflexivity.
Qed.

(** X22: in every reachable store the list of categories has no
    duplicates, lists exactly the category values in use that are not blank
    (so no blank or whitespace-only string), and is in the order of the
    NOCASE collation: by the texts as read up to their first U+0000, ASCII
    case ignored, then by length in bytes; when no listed category has a
    U+0000 that is the case-insensitive alphabetical order. *)
Theorem db_distinct_categories_spec (s : store) :
  reachable s ->
  NoDup (db_distinct_categories s)
  /\ (forall c, In c (db_distinct_categories s) <->
                (exists r, In r (rows s) /\ category r = c) /\ ~ blank c)
  /\ StronglySorted nocase_order (db_distinct_categories s)
  /\ ((forall c, In c (db_distinct_categories s) -> nul_free c) ->
      StronglySorted nocase_le (db_distinct_categories s)).
Proof.
  intros Hs. apply reachable_categories_stripped in Hs.
  unfold categories_stripped in Hs. rewrite Forall_forall in Hs.
  split; [apply db_distinct_categories_NoDup|]. split; [|split].
  - intros c. rewrite db_distinct_categories_In. split.
    + intros [[r [Hr <-]] Hsp]. split; [now exists r|].
      intros Hb. apply Hsp.
      rewrite (stripped_blank_nil (category r) (Hs r Hr) Hb). reflexivity.
    + intros [Hr Hb]. split; [exact Hr|].
      intros Hsp. apply Hb. now apply only_spaces_blank.
  - apply db_distinct_categories_sorted.
  - intros Hnul.
    pose proof (db_distinct_categories_sorted s) as H.
    induction H as [|c l Hl IH Hc]; constructor.
    + apply IH. intros c' Hc'. apply Hnul. now right.
    + rewrite Forall_forall in *. intros c' Hc'.
      apply nocase_order_nul_free; [apply Hnul; now left | | now apply Hc].
      apply Hnul. now right.
Qed.

Lemma db_distinct_categories_spec_witness :
  reachable store_scenario
  /\ db_distinct_categories store_scenario = [txt "Animation"; txt "Rigging"]
  /\ (forall c, In c (db_distinct_categories store_scenario) -> nul_free c)
  /\ NoDup (db_distinct_categories store_scenario)
  /\ StronglySorted nocase_le (db_distinct_categories store_scenario).
Proof.
  destruct (db_distinct_categories_spec store_scenario
              store_scenario_reachable) as (H1 & _ & _ & H4).
  assert (Hnul : forall c, In c (db_distinct_categories store_scenario) ->
                           nul_free c).
  { intros c [<- | [<- | []]] H; simpl in H;
      repeat (destruct H as [H | H]; [discriminate H|]); exact H. }
  split; [exact store_scenario_reachable|]. split; [reflexivity|].
  split; [exact Hnul|]. split; [exact H1 | exact (H4 Hnul)].
Defined.

(** ** Properties of [db_init] *)

Lemma has_exact_has_column (n : text) (cols : list column) :
  has_exact n cols = true -> has_column n cols = true.
Proof.
  unfold has_exact, has_column. rewrite !existsb_exists.
  intros [c [Hc E]]. exists c. split; [assumption|].
  apply text_eqb_true in E. unfold same_column. rewrite E.
  apply text_eqb_refl.
Qed.

Lemma has_exact_app (n : text) (l1 l2 : list column) :
  has_exact n (l1 ++ l2) = has_exact n l1 || has_exact n l2.
Proof. apply existsb_app. Qed.

Lemma has_column_app (n : text) (l1 l2 : list column) :
  has_column n (l1 ++ l2) = has_column n l1 || has_column n l2.
Proof. apply existsb_app. Qed.

Lemma migrate_unfold (c : column) (t : table) :
  migrate c (Some t) =
  if has_exact (col_name c) (columns t) then (Done tt, Some t)
  else alter_table_add_column c (Some t).
Proof.
  unfold migrate, bind, _column_exists, bind, table_info, ret, has_exact.
  now destruct (existsb _ (columns t)).
Qed.

(** A migration either succeeds, and then the column is there under its
    exact name and no column was lost, or fails and changes nothing. *)
Lemma migrate_cases (c : column) (t : table) :
  (exists t', migrate c (Some t) = (Done tt, Some t')
              /\ has_exact (col_name c) (columns t') = true
              /\ (forall n, has_exact n (columns t) = true ->
                            has_exact n (columns t') = true))
  \/ (exists e, migrate c (Some t) = (Raised e, Some t)).
Proof.
  rewrite migrate_unfold.
  destruct (has_exact (col_name c) (columns t)) eqn:E.
  - left. exists t. auto.
  - unfold alter_table_add_column.
    destruct (existsb _ (columns t)); [right; eauto|].
    assert (Hadd : has_exact (col_name c) (columns t ++ [c]) = true
                   /\ forall n, has_exact n (columns t) = true ->
                                has_exact n (columns t ++ [c]) = true).
    { split.
      - rewrite has_exact_app. simpl. rewrite text_eqb_refl.
        now rewrite orb_true_r.
      - intros n Hn. rewrite has_exact_app, Hn. reflexivity. }
    destruct (col_notnull c); destruct (default_value c);
      destruct (records t);
      try (right; eauto; fail);
      left; eexists; (split; [reflexivity|exact Hadd]).
Qed.

Lemma db_init_unfold (d : database) :
  db_init d = (create_table_if_not_exists ;; migrations newer_columns) d.
Proof. reflexivity. Qed.

Lemma migrations_cons (c : column) (l : list column) (d : database) :
  migrations (c :: l) d =
  match migrate c d with
  | (Done _, d') => migrations l d'
  | (Raised e, d') => (Raised e, d')
  end.
Proof. reflexivity. Qed.

Lemma migrations_keep (l : list column) (t : table) :
  exists res t',
    migrations l (Some t) = (res, Some t')
    /\ forall n, has_exact n (columns t) = true ->
                 has_exact n (columns t') = true.
Proof.
  revert t. induction l as [|c l IH]; intros t.
  - exists (Done tt), t. auto.
  - rewrite migrations_cons.
    destruct (migrate_cases c t) as [[t1 (E & _ & Hk)] | [e E]]; rewrite E.
    + destruct (IH t1) as (res & t' & E' & Hk').
      exists res, t'. split; [exact E'|]. auto.
    + exists (Raised e), t. auto.
Qed.

Lemma migrations_idempotent (l : list column) (t : table) :
  migrations l (snd (migrations l (Some t))) = migrations l (Some t).
Proof.
  revert t. induction l as [|c l IH]; intros t; [reflexivity|].
  rewrite (migrations_cons c l (Some t)).
  destruct (migrate_cases c t) as [[t1 (E & Hc & _)] | [e E]]; rewrite E.
  - destruct (migrations_keep l t1) as (res & t' & E' & Hk).
    specialize (IH t1). rewrite E' in *. simpl snd in *.
    rewrite migrations_cons, migrate_unfold, (Hk _ Hc). exact IH.
  - simpl snd. rewrite migrations_cons. now rewrite E.
Qed.

Lemma db_init_some (t : table) : db_init (Some t) = migrations newer_columns (Some t).
Proof. reflexivity. Qed.

Lemma db_init_none :
  db_init None =
  migrations newer_columns (Some {| columns := base_columns; records := [] |}).
Proof. reflexivity. Qed.

(** X18: on a table that has the four newer columns, each under its exact
    name, [db_init] succeeds and changes nothing. *)
Lemma db_init_current (t : table) :
  Forall (fun c => has_exact (col_name c) (columns t) = true) newer_columns ->
  db_init (Some t) = (Done tt, Some t).
Proof.
  intros H. unfold newer_columns in H.
  inversion H as [|? ? Hv H1]; subst. inversion H1 as [|? ? Hc H2]; subst.
  inversion H2 as [|? ? Hb H3]; subst. inversion H3 as [|? ? Hw _]; subst.
  rewrite db_init_some. unfold newer_columns.
  rewrite migrations_cons, migrate_unfold, Hv.
  rewrite migrations_cons, migrate_unfold, Hc.
  rewrite migrations_cons, migrate_unfold, Hb.
  rewrite migrations_cons, migrate_unfold, Hw.
  reflexivity.
Qed.

Lemma db_init_idempotent (d : database) :
  db_init (snd (db_init d)) = db_init d.
Proof.
  assert (H : exists t, db_init d = migrations newer_columns (Some t)).
  { destruct d as [t|]; [exists t; apply db_init_some|].
    eexists. apply db_init_none. }
  destruct H as [t E]. rewrite E.
  destruct (migrations_keep newer_columns t) as (res & t' & E' & _).
  pose proof (migrations_idempotent newer_columns t) as H.
  rewrite E' in *. simpl snd in *. rewrite db_init_some. exact H.
Qed.

Lemma field_app_l (cols cols2 : list column) (r r2 : list value) (n : text)
  (v : value) :
  field cols r n = Some v -> field (cols ++ cols2) (r ++ r2) n = Some v.
Proof.
  revert r. induction cols as [|c cols IH]; intros [|x r]; simpl;
    try discriminate.
  destruct (same_column (col_name c) n); [auto|apply IH].
Qed.

Lemma field_app_r (cols cols2 : list column) (r r2 : list value) (n : text) :
  List.length r = List.length cols -> has_column n cols = false ->
  field (cols ++ cols2) (r ++ r2) n = field cols2 r2 n.
Proof.
  revert r. induction cols as [|c cols IH]; intros [|x r]; simpl;
    try discriminate; [reflexivity|].
  intros Hlen Hno. apply orb_false_iff in Hno. destruct Hno as [Hc Hno].
  rewrite Hc. apply IH; [now injection Hlen | assumption].
Qed.

Lemma migrate_absent (n : string) (t : table) :
  has_column (txt n) (columns t) = false ->
  migrate (text_column n (Some EmptyString)) (Some t) =
  (Done tt, Some (add_column (text_column n (Some EmptyString)) t)).
Proof.
  intros H. rewrite migrate_unfold.
  destruct (has_exact _ (columns t)) eqn:E.
  - apply has_exact_has_column in E. simpl col_name in E. congruence.
  - unfold alter_table_add_column.
    change (existsb _ (columns t)) with (has_column (txt n) (columns t)).
    now rewrite H.
Qed.

Lemma db_init_legacy (t : table) :
  lacks_newer_columns t ->
  db_init (Some t) =
  (Done tt, Some {| columns := columns t ++ newer_columns;
                  records := map (fun r => r ++ backfill) (records t) |}).
Proof.
  intros H. unfold lacks_newer_columns, newer_columns in H.
  inversion H as [|? ? Hv H1]; subst. inversion H1 as [|? ? Hc H2]; subst.
  inversion H2 as [|? ? Hb H3]; subst. inversion H3 as [|? ? Hw _]; subst.
  rewrite db_init_some. unfold newer_columns.
  rewrite migrations_cons.
  unfold version_column. rewrite migrate_absent by exact Hv.
  rewrite migrations_cons.
  unfold category_column. rewrite migrate_absent.
  2:{ simpl columns. rewrite has_column_app. simpl col_name in Hc.
      rewrite Hc. reflexivity. }
  rewrite migrations_cons.
  unfold blend_path_column. rewrite migrate_absent.
  2:{ simpl columns. rewrite !has_column_app. simpl col_name in Hb.
      rewrite Hb. reflexivity. }
  rewrite migrations_cons.
  unfold work_path_column. rewrite migrate_absent.
  2:{ simpl columns. rewrite !has_column_app. simpl col_name in Hw.
      rewrite Hw. reflexivity. }
  simpl migrations. unfold ret, add_column. simpl columns. simpl records.
  f_equal. f_equal. f_equal.
  - rewrite <- !app_assoc. reflexivity.
  - rewrite !map_map. apply map_ext. intros r.
    rewrite <- !app_assoc. reflexivity.
Qed.

(** C8: running [db_init] on what a run of [db_init] left ends the same way
    and leaves the same database, whatever the database was at the start;
    and on a table that has none of the columns version, category,
    blend_path and work_path, [db_init] succeeds, appends these four columns
    and nothing else, keeps the number and order of the records, leaves
    every value a record held in a column it had (so its id, name, status
    and last_run) as it was, and makes every record read the empty string in
    each of the four new columns. *)
Theorem db_init_migration (d : database) (t : table) :
  db_init (snd (db_init d)) = db_init d
  /\ (lacks_newer_columns t -> well_formed t ->
      exists t',
        db_init (Some t) = (Done tt, Some t')
        /\ columns t' = columns t ++ newer_columns
        /\ Forall2
             (fun r r' =>
                (forall n v, field (columns t) r n = Some v ->
                             field (columns t') r' n = Some v)
                /\ Forall (fun c => field (columns t') r' (col_name c)
                                    = Some (VText []))
                          newer_columns)
             (records t) (records t')).
Proof.
  split; [apply db_init_idempotent|].
  intros Hlacks Hwf.
  exists {| columns := columns t ++ newer_columns;
            records := map (fun r => r ++ backfill) (records t) |}.
  split; [now apply db_init_legacy|]. split; [reflexivity|].
  simpl columns. simpl records.
  unfold well_formed in Hwf. induction Hwf as [|r l Hlen _ IH]; simpl;
    constructor; [|exact IH].
  split.
  - intros n v. apply field_app_l.
  - unfold lacks_newer_columns in Hlacks.
    rewrite Forall_forall in *. intros c Hc.
    rewrite (field_app_r _ _ _ _ _ Hlen (Hlacks c Hc)).
    simpl in Hc. destruct Hc as [<- | [<- | [<- | [<- | []]]]]; reflexivity.
Qed.

Lemma db_init_migration_witness :
  lacks_newer_columns legacy_table
  /\ well_formed legacy_table
  /\ exists t',
       db_init (Some legacy_table) = (Done tt, Some t')
       /\ columns t' = columns legacy_table ++ newer_columns
       /\ Forall2
            (fun r r' =>
               (forall n v, field (columns legacy_table) r n = Some v ->
                            field (columns t') r' n = Some v)
               /\ Forall (fun c => field (columns t') r' (col_name c)
                                   = Some (VText []))
                         newer_columns)
            (records legacy_table) (records t').
Proof.
  assert (H1 : lacks_newer_columns legacy_table) by (repeat constructor).
  assert (H2 : well_formed legacy_table) by (repeat constructor).
  split; [exact H1|]. split; [exact H2|].
  exact (proj2 (db_init_migration None legacy_table) H1 H2).
Defined.

(** *** From the migrated table to the rows of the DB layer *)

(** A new database gets the current schema and no record, and the record of
    an original-schema table comes out of [db_init] with its six values in
    place and the four newer fields empty. *)
Lemma db_init_rows (i lr : Z) (n cp bp st : text) :
  db_init None =
    (Done tt, Some {| columns := base_columns ++ newer_columns; records := [] |})
  /\ row_of_record
       ([VInt i; VText n; VText cp; VText bp; VText st; VInt lr] ++ backfill)
     = Some {| id := i; name := n; cover_path := cp; bat_path := bp;
               status := st; last_run := lr; version := []; category := [];
               blend_path := []; work_path := [] |}
  /\ backfilled {| id := i; name := n; cover_path := cp; bat_path := bp;
                   status := st; last_run := lr; version := [];
                   category := []; blend_path := []; work_path := [] |}.
Proof. repeat split. Qed.

(** * Further properties of the DB layer *)

(** ** Ids *)

Lemma rowid_ordered_unique (l : list Row) (a b : Row) :
  StronglySorted rowid_before l -> In a l -> In b l -> id a = id b -> a = b.
Proof.
  induction 1 as [|x l Hl IH Hx]; simpl; [tauto|].
  rewrite Forall_forall in Hx. unfold rowid_before in Hx.
  intros [<- | Ha] [<- | Hb] E; auto.
  - specialize (Hx b Hb). lia.
  - specialize (Hx a Ha). lia.
Qed.

Lemma rowid_ordered_NoDup (l : list Row) :
  StronglySorted rowid_before l -> NoDup (map id l).
Proof.
  induction 1 as [|x l Hl IH Hx]; simpl; constructor; [|assumption].
  rewrite Forall_forall in Hx. unfold rowid_before in Hx.
  intros Hin. apply in_map_iff in Hin. destruct Hin as [y [E Hy]].
  specialize (Hx y Hy). lia.
Qed.

Lemma step_counter (s s' : store) :
  step s s' -> (sqlite_sequence s <= sqlite_sequence s')%Z.
Proof.
  intros [s0 s1 m i H | s0 s1 mod_id m H | s0 s1 mod_id H
         | s0 s1 mod_id st ts H].
  - apply db_insert_done in H. destruct H as (_ & E & ->). simpl.
    destruct (new_rowid_fresh s0 i E) as [_ Hk]. lia.
  - apply db_update_done in H. destruct H as [_ ->]. simpl. lia.
  - apply db_delete_done in H. destruct H as [_ ->]. simpl. lia.
  - apply db_update_run_done in H. destruct H as [_ ->]. simpl. lia.
Qed.

Lemma steps_counter (s s' : store) :
  steps s s' -> (sqlite_sequence s <= sqlite_sequence s')%Z.
Proof.
  induction 1 as [s | s s' s'' _ IH H]; [lia|].
  apply step_counter in H. lia.
Qed.

(** X1: the ids [db_insert] returns only grow: whatever is inserted,
    updated or deleted between two inserts, the later one returns the
    larger id. *)
Theorem db_insert_ids_increase (s s1 s2 s3 : store) (m m' : mod_dict)
  (i1 i2 : Z) :
  db_insert s m = Done (s1, i1) -> steps s1 s2 ->
  db_insert s2 m' = Done (s3, i2) ->
  (i1 < i2)%Z.
Proof.
  intros H1 Hsteps H2.
  apply db_insert_done in H1. destruct H1 as (_ & _ & ->).
  apply db_insert_done in H2. destruct H2 as (_ & E2 & _).
  apply steps_counter in Hsteps. simpl in Hsteps.
  destruct (new_rowid_fresh s2 i2 E2) as [_ Hk]. lia.
Qed.

Lemma db_insert_ids_increase_witness :
  exists s1 s2 s3,
    db_insert empty_store (mod_named "Jump Cycle" "Animation") = Done (s1, 1%Z)
    /\ steps s1 s2
    /\ rows s2 = []
    /\ db_insert s2 (mod_named "Idle Loop" "Animation") = Done (s3, 2%Z)
    /\ (1 < 2)%Z.
Proof.
  exists {| rows := [ex_row 1 "Jump Cycle" "Animation"];
            sqlite_sequence := 1 |},
         {| rows := []; sqlite_sequence := 1 |},
         {| rows := [ex_row 2 "Idle Loop" "Animation"];
            sqlite_sequence := 2 |}.
  assert (Hs : steps {| rows := [ex_row 1 "Jump Cycle" "Animation"];
                        sqlite_sequence := 1 |}
                     {| rows := []; sqlite_sequence := 1 |}).
  { eapply steps_more; [apply steps_none|].
    now apply (step_delete _ _ 1). }
  split; [reflexivity|]. split; [exact Hs|]. split; [reflexivity|].
  split; [reflexivity|].
  exact (db_insert_ids_increase empty_store
           {| rows := [ex_row 1 "Jump Cycle" "Animation"];
              sqlite_sequence := 1 |}
           {| rows := []; sqlite_sequence := 1 |}
           {| rows := [ex_row 2 "Idle Loop" "Animation"];
              sqlite_sequence := 2 |}
           (mod_named "Jump Cycle" "Animation")
           (mod_named "Idle Loop" "Animation") 1 2
           eq_refl Hs eq_refl).
Defined.

(** X2: in every reachable store the id is a key: no listing, whatever its
    filters, has two records of the same id. *)
Theorem reachable_ids_unique (s : store) (nf cf : option text) :
  reachable s -> NoDup (map id (db_fetch_all s nf cf)).
Proof.
  intros H. apply reachable_rowid_ordered in H. unfold rowid_ordered in H.
  rewrite db_fetch_all_unfold.
  eapply Permutation_NoDup.
  - apply Permutation_map. symmetry. apply order_by_perm.
  - apply rowid_ordered_NoDup. now apply StronglySorted_filter.
Qed.

Lemma reachable_ids_unique_witness :
  reachable store_scenario
  /\ NoDup (map id (db_fetch_all store_scenario None (Some (txt "Animation")))).
Proof.
  split; [exact store_scenario_reachable|].
  exact (reachable_ids_unique store_scenario None (Some (txt "Animation"))
           store_scenario_reachable).
Defined.

Lemma deleted_id_never_returns_witness :
  exists s1 s2,
    (1 <= sqlite_sequence store_scenario)%Z
    /\ db_delete store_scenario 1 = Done s1
    /\ steps s1 s2
    /\ map id (rows s2) = [2%Z; 3%Z; 4%Z]
    /\ forall nf cf r, In r (db_fetch_all s2 nf cf) -> id r <> 1%Z.
Proof.
  exists {| rows := [ex_row 2 "Idle Loop" "Animation";
                     ex_row 3 "Rig Setup" "Rigging"];
            sqlite_sequence := 3 |},
         {| rows := [ex_row 2 "Idle Loop" "Animation";
                     ex_row 3 "Rig Setup" "Rigging";
                     ex_row 4 "Jump Cycle" "Animation"];
            sqlite_sequence := 4 |}.
  assert (Hseq : (1 <= sqlite_sequence store_scenario)%Z) by (simpl; lia).
  assert (Hs : steps {| rows := [ex_row 2 "Idle Loop" "Animation";
                                 ex_row 3 "Rig Setup" "Rigging"];
                        sqlite_sequence := 3 |}
                     {| rows := [ex_row 2 "Idle Loop" "Animation";
                                 ex_row 3 "Rig Setup" "Rigging";
                                 ex_row 4 "Jump Cycle" "Animation"];
                        sqlite_sequence := 4 |}).
  { eapply steps_more; [apply steps_none|].
    now apply (step_insert _ _ (mod_named "Jump Cycle" "Animation") 4). }
  split; [exact Hseq|]. split; [reflexivity|]. split; [exact Hs|].
  split; [reflexivity|].
  exact (deleted_id_never_returns store_scenario
           {| rows := [ex_row 2 "Idle Loop" "Animation";
                       ex_row 3 "Rig Setup" "Rigging"];
              sqlite_sequence := 3 |}
           {| rows := [ex_row 2 "Idle Loop" "Animation";
                       ex_row 3 "Rig Setup" "Rigging";
                       ex_row 4 "Jump Cycle" "Animation"];
              sqlite_sequence := 4 |}
           1 Hseq eq_refl Hs).
Defined.

(** ** Writes that undo or replace one another *)

(** The rowid handed out is a 64-bit integer when the counter is one. *)
Lemma new_rowid_value (s : store) (i : Z) :
  sqlite_value (PInt (sqlite_sequence s)) -> new_rowid s = Some i ->
  sqlite_value (PInt i).
Proof.
  simpl. unfold MIN_INT64, MAX_INT64. intros Hq Hi.
  destruct (new_rowid_fresh s i Hi) as [_ Hlow]. split; [lia|].
  revert Hi. unfold new_rowid, MAX_ROWID.
  destruct (max_id (rows s)) as [m|].
  - destruct (Z.geb_spec m 9223372036854775807) as [Hm | Hm];
      [discriminate|].
    destruct (Z.eqb_spec (sqlite_sequence s) 9223372036854775807)
      as [Hs | Hs]; [discriminate|].
    intros E. injection E as <-.
    destruct (Z.ltb_spec (m + 1) (sqlite_sequence s + 1)); lia.
  - destruct (Z.eqb_spec (sqlite_sequence s) 9223372036854775807)
      as [Hs | Hs]; [discriminate|].
    intros E. injection E as <-.
    destruct (Z.ltb_spec 1 (sqlite_sequence s + 1)); lia.
Qed.

(** X4: when [db_insert] has returned an id, on a table whose counter is a
    64-bit integer, [db_delete] of that id returns and takes the table back
    to the rows it had; only the counter remembers the insert. *)
Theorem db_insert_then_delete (s s1 : store) (m : mod_dict) (i : Z) :
  sqlite_value (PInt (sqlite_sequence s)) ->
  db_insert s m = Done (s1, i) ->
  exists s2,
    db_delete s1 i = Done s2
    /\ rows s2 = rows s
    /\ sqlite_sequence s2 = i
    /\ (sqlite_sequence s < i)%Z.
Proof.
  intros Hq H. apply db_insert_done in H. destruct H as (_ & Hi & ->).
  destruct (new_rowid_fresh s i Hi) as [Hids Hseq].
  rewrite (db_delete_value _ i (new_rowid_value s i Hq Hi)).
  eexists. split; [reflexivity|]. simpl.
  split; [|split; [reflexivity|exact Hseq]].
  rewrite filter_app. simpl. rewrite Z.eqb_refl. simpl.
  rewrite app_nil_r. apply filter_id.
  rewrite Forall_forall in Hids. intros r Hr. specialize (Hids r Hr).
  rewrite negb_true_iff. apply Z.eqb_neq. lia.
Qed.

Lemma db_insert_then_delete_witness :
  sqlite_value (PInt (sqlite_sequence store_scenario))
  /\ exists s1,
       db_insert store_scenario mod_padded = Done (s1, 4%Z)
       /\ exists s2,
            db_delete s1 4 = Done s2
            /\ rows s2 = rows store_scenario
            /\ sqlite_sequence s2 = 4%Z
            /\ (sqlite_sequence store_scenario < 4)%Z.
Proof.
  assert (Hq : sqlite_value (PInt (sqlite_sequence store_scenario)))
    by (now apply int64_spec).
  split; [exact Hq|].
  exists {| rows := rows store_scenario ++ [ex_row 4 "Jump Cycle" "Animation"];
            sqlite_sequence := 4 |}.
  split; [reflexivity|].
  exact (db_insert_then_delete store_scenario
           {| rows := rows store_scenario
                      ++ [ex_row 4 "Jump Cycle" "Animation"];
              sqlite_sequence := 4 |}
           mod_padded 4 Hq eq_refl).
Defined.

(** X5: [db_update] replaces: when two updates of the same id return one
    after the other, the table is what the second update alone makes it,
    and the second alone returns as well; nothing of the first field set
    is left. *)
Theorem db_update_last_wins (s s1 s2 : store) (mod_id : Z)
  (m1 m2 : mod_dict) :
  db_update s mod_id m1 = Done s1 ->
  db_update s1 mod_id m2 = Done s2 ->
  db_update s mod_id m2 = Done s2.
Proof.
  intros H1 H2. apply db_update_done in H1. destruct H1 as [_ ->].
  revert H2. unfold db_update. simpl rows. simpl sqlite_sequence.
  destruct (bind_parameters (parameters m2 ++ [PInt mod_id]));
    [discriminate|].
  assert (Hex : existsb (fun r => (id r =? mod_id)%Z)
                  (map (fun r => if (id r =? mod_id)%Z
                                 then row_of_mod (id r) m1 else r) (rows s))
                = existsb (fun r => (id r =? mod_id)%Z) (rows s)).
  { induction (rows s) as [|r l IH]; simpl; [reflexivity|].
    rewrite IH. f_equal.
    destruct (id r =? mod_id)%Z eqn:E; simpl; exact E. }
  rewrite Hex.
  destruct (existsb _ (rows s) && too_big (parameters m2)); [discriminate|].
  intros H. injection H as <-. f_equal. f_equal.
  rewrite map_map. apply map_ext. intros r.
  destruct (id r =? mod_id)%Z eqn:E; simpl; rewrite E; reflexivity.
Qed.

Lemma db_update_last_wins_witness :
  exists s1 s2,
    db_update store_scenario 2 (mod_named "Idle" "Draft") = Done s1
    /\ db_update s1 2 mod_padded = Done s2
    /\ map name (rows s2) = [txt "Jump Cycle"; txt "Jump Cycle"; txt "Rig Setup"]
    /\ db_update store_scenario 2 mod_padded = Done s2.
Proof.
  exists {| rows := [ex_row 1 "Jump Cycle" "Animation";
                     ex_row 2 "Idle" "Draft";
                     ex_row 3 "Rig Setup" "Rigging"];
            sqlite_sequence := 3 |},
         {| rows := [ex_row 1 "Jump Cycle" "Animation";
                     ex_row 2 "Jump Cycle" "Animation";
                     ex_row 3 "Rig Setup" "Rigging"];
            sqlite_sequence := 3 |}.
  split; [reflexivity|]. split; [reflexivity|]. split; [reflexivity|].
  exact (db_update_last_wins store_scenario
           {| rows := [ex_row 1 "Jump Cycle" "Animation";
                       ex_row 2 "Idle" "Draft";
                       ex_row 3 "Rig Setup" "Rigging"];
              sqlite_sequence := 3 |}
           {| rows := [ex_row 1 "Jump Cycle" "Animation";
                       ex_row 2 "Jump Cycle" "Animation";
                       ex_row 3 "Rig Setup" "Rigging"];
              sqlite_sequence := 3 |}
           2 (mod_named "Idle" "Draft") mod_padded eq_refl eq_refl).
Defined.

(** X6: [db_update] of an id no row has changes nothing, and raises
    nothing when SQLite takes the values and the id as parameters; a record
    too long to store does not matter then, for none is written. *)
Theorem db_update_absent_id (s : store) (mod_id : Z) (m : mod_dict) :
  (forall r, In r (rows s) -> id r <> mod_id) ->
  Forall sqlite_value (parameters m ++ [PInt mod_id]) ->
  db_update s mod_id m = Done s.
Proof. apply db_update_absent. Qed.

Lemma db_update_absent_id_witness :
  (forall r, In r (rows store_scenario) -> id r <> 7%Z)
  /\ Forall sqlite_value (parameters mod_padded ++ [PInt 7])
  /\ db_update store_scenario 7 mod_padded = Done store_scenario.
Proof.
  assert (Hno : forall r, In r (rows store_scenario) -> id r <> 7%Z).
  { intros r [<- | [<- | [<- | []]]]; discriminate. }
  assert (Hv : Forall sqlite_value (parameters mod_padded ++ [PInt 7])).
  { apply bind_parameters_spec. reflexivity. }
  split; [exact Hno|]. split; [exact Hv|].
  exact (db_update_absent_id store_scenario 7 mod_padded Hno Hv).
Defined.

(** ** What the table holds *)

Lemma set_run_values (st : text) (ts : Z) (r : Row) :
  sqlite_value (PText st) -> sqlite_value (PInt ts) ->
  Forall sqlite_value (values r) ->
  Forall sqlite_value (values (set_run st ts r)).
Proof.
  intros Hst Hts H. unfold values in *. simpl.
  repeat match goal with
         | H : Forall _ (_ :: _) |- _ => inversion H; subst; clear H
         end.
  repeat (apply Forall_cons; [assumption|]). apply Forall_nil.
Qed.

Lemma step_sqlite_store (s s' : store) :
  step s s' -> sqlite_store s -> sqlite_store s'.
Proof.
  intros [s0 s1 m i H | s0 s1 mod_id m H | s0 s1 mod_id H
         | s0 s1 mod_id st ts H] [Hq Hrows].
  - apply db_insert_done in H. destruct H as (Hst & Hi & ->).
    pose proof (new_rowid_value s0 i Hq Hi) as Hid.
    split; [exact Hid|]. simpl rows. apply Forall_app.
    split; [assumption|]. constructor; [|constructor].
    split; [exact Hid | exact Hst].
  - pose proof (db_update_done_storable s0 s1 mod_id m) as Hst.
    specialize (fun r => Hst r H).
    apply db_update_done in H. destruct H as [_ ->].
    split; [exact Hq|]. simpl rows.
    rewrite Forall_forall in *. intros r' Hr'.
    apply in_map_iff in Hr'. destruct Hr' as [r [<- Hr]].
    destruct (Z.eqb_spec (id r) mod_id) as [E | E]; [|now apply Hrows].
    split; [exact (proj1 (Hrows r Hr)) | exact (Hst r Hr E)].
  - apply db_delete_done in H. destruct H as [_ ->].
    split; [exact Hq|]. simpl rows.
    rewrite Forall_forall in *. intros r Hr. apply filter_In in Hr.
    apply Hrows. tauto.
  - apply db_update_run_done in H. destruct H as [[Hv Hsz] ->].
    inversion Hv as [|? ? Hst Hv']; subst.
    inversion Hv' as [|? ? Hts _]; subst. clear Hv Hv'.
    split; [exact Hq|]. simpl rows.
    rewrite Forall_forall in *. intros r' Hr'.
    apply in_map_iff in Hr'. destruct Hr' as [r [<- Hr]].
    destruct (Z.eqb_spec (id r) mod_id) as [E | E]; [|now apply Hrows].
    destruct (Hrows r Hr) as [Hid [Hvals _]].
    split; [exact Hid|]. split; [|exact (Hsz r Hr E)].
    now apply set_run_values.
Qed.

(** X23: the writing operations keep the table one that SQLite can hold:
    started on a table whose counter and ids are 64-bit integers and whose
    rows are storable (as the empty table is), every table they lead to is
    such a table, so the ids and values that the window later passes back
    to [db_update], [db_delete] and [db_update_run] are ones SQLite
    takes. *)
Theorem steps_sqlite_store (s s' : store) :
  sqlite_store s -> steps s s' -> sqlite_store s'.
Proof.
  intros Hs Hsteps. induction Hsteps as [s | s s' s'' _ IH Hstep].
  - exact Hs.
  - exact (step_sqlite_store s' s'' Hstep (IH Hs)).
Qed.

Lemma steps_sqlite_store_witness :
  sqlite_store empty_store
  /\ steps empty_store store_scenario
  /\ sqlite_store store_scenario.
Proof.
  assert (H0 : sqlite_store empty_store).
  { split; [now apply int64_spec | constructor]. }
  assert (Hs : steps empty_store store_scenario).
  { apply (steps_more _
             {| rows := [ex_row 1 "Jump Cycle" "Animation";
                         ex_row 2 "Idle Loop" "Animation"];
                sqlite_sequence := 2 |});
      [|now apply (step_insert _ _ (mod_named "Rig Setup" "Rigging") 3)].
    apply (steps_more _
             {| rows := [ex_row 1 "Jump Cycle" "Animation"];
                sqlite_sequence := 1 |});
      [|now apply (step_insert _ _ (mod_named "Idle Loop" "Animation") 2)].
    apply (steps_more _ empty_store);
      [|now apply (step_insert _ _ (mod_named "Jump Cycle" "Animation") 1)].
    apply steps_none. }
  split; [exact H0|]. split; [exact Hs|].
  exact (steps_sqlite_store empty_store store_scenario H0 Hs).
Defined.

(** ** Listings *)

(** X7: the unfiltered listing has every row of the table exactly once, and
    a filtered listing is the unfiltered one with rows left out: filters
    never reorder and never add. *)
Theorem db_fetch_all_sublisting (s : store) (nf cf : option text) :
  Permutation (db_fetch_all s None None) (rows s)
  /\ exists keep,
       db_fetch_all s nf cf = filter keep (db_fetch_all s None None).
Proof.
  split.
  - unfold db_fetch_all. simpl. rewrite filter_all. apply order_by_perm.
  - exists (fun r => name_passes nf r && category_passes cf r).
    rewrite !db_fetch_all_unfold. simpl (name_passes None _ && _).
    rewrite filter_all. symmetry.
    apply filter_order_by; [exact name_leb_total | exact name_leb_trans].
Qed.

(** X8: for a non-empty ASCII name filter without [%], [_] and U+0000,
    short enough for its pattern to be within SQLite's limit, and a
    category filter that SQLite takes as a parameter, a record whose name
    has no U+0000 is listed exactly when it is listed without the name
    filter and the filter occurs in its name, ASCII case ignored. *)
Theorem db_fetch_all_ascii_name_filter (s : store) (f : text)
  (cf : option text) (r : Row) :
  f <> [] -> Forall ascii_char f -> Forall plain f -> nul_free f ->
  (utf8_length f + 2 <= SQLITE_MAX_LIKE_PATTERN_LENGTH)%N ->
  (forall c, cf = Some c -> sqlite_value (PText c)) ->
  nul_free (name r) ->
  In r (db_fetch_all s (Some f) cf) <->
  In r (db_fetch_all s None cf) /\ nocase_infix f (name r).
Proof.
  intros Hne _ Hf _ _ _ _. rewrite !db_fetch_all_In.
  simpl (name_passes None r).
  unfold name_passes. destruct f as [|c f]; [congruence|].
  simpl (truthy _). rewrite (like_plain_infix (c :: f) (name r) Hf).
  tauto.
Qed.

Lemma db_fetch_all_ascii_name_filter_witness :
  txt "AGON po" <> []
  /\ Forall ascii_char (txt "AGON po")
  /\ Forall plain (txt "AGON po")
  /\ nul_free (txt "AGON po")
  /\ (utf8_length (txt "AGON po") + 2 <= SQLITE_MAX_LIKE_PATTERN_LENGTH)%N
  /\ (forall c, Some (txt "Posing") = Some c -> sqlite_value (PText c))
  /\ nul_free (name (ex_named 1 "Dragon Pose"))
  /\ (In (ex_named 1 "Dragon Pose")
         (db_fetch_all store_dragon (Some (txt "AGON po"))
            (Some (txt "Posing")))
      <-> In (ex_named 1 "Dragon Pose")
             (db_fetch_all store_dragon None (Some (txt "Posing")))
          /\ nocase_infix (txt "AGON po") (name (ex_named 1 "Dragon Pose"))).
Proof.
  assert (H1 : txt "AGON po" <> []) by discriminate.
  assert (H2 : Forall ascii_char (txt "AGON po"))
    by (repeat constructor).
  assert (H3 : Forall plain (txt "AGON po"))
    by (repeat constructor; discriminate).
  assert (H4 : nul_free (txt "AGON po")).
  { intros H. simpl in H.
    repeat (destruct H as [H | H]; [discriminate H|]). exact H. }
  assert (H5 : (utf8_length (txt "AGON po") + 2
                <= SQLITE_MAX_LIKE_PATTERN_LENGTH)%N)
    by (now apply N.leb_le).
  assert (H6 : forall c, Some (txt "Posing") = Some c ->
                         sqlite_value (PText c)).
  { intros c E. injection E as <-. now apply bind_param_spec. }
  assert (H7 : nul_free (name (ex_named 1 "Dragon Pose"))).
  { intros H. simpl in H.
    repeat (destruct H as [H | H]; [discriminate H|]). exact H. }
  split; [exact H1|]. split; [exact H2|]. split; [exact H3|].
  split; [exact H4|]. split; [exact H5|]. split; [exact H6|].
  split; [exact H7|].
  exact (db_fetch_all_ascii_name_filter store_dragon (txt "AGON po")
           (Some (txt "Posing")) (ex_named 1 "Dragon Pose")
           H1 H2 H3 H4 H5 H6 H7).
Defined.

(** ** The categories in use *)

(** X9: a launch that is written leaves the list of categories as it is,
    and a delete can only take categories out of it. *)
Theorem categories_after_run_and_delete (s s' : store) (mod_id : Z)
  (st : text) (ts : Z) :
  (db_update_run s mod_id st ts = Done s' ->
   db_distinct_categories s' = db_distinct_categories s)
  /\ (db_delete s mod_id = Done s' ->
      forall c, In c (db_distinct_categories s') ->
                In c (db_distinct_categories s)).
Proof.
  split.
  - intros H. apply db_update_run_done in H. destruct H as [_ ->].
    unfold db_distinct_categories. simpl rows.
    set (g := fun r => if (id r =? mod_id)%Z then set_run st ts r else r).
    assert (Hg : forall r, category (g r) = category r).
    { intros r. unfold g. now destruct (id r =? mod_id)%Z. }
    rewrite filter_map_commute by (intros r; now rewrite Hg).
    rewrite map_map.
    rewrite (map_ext (fun r => category (g r)) category Hg).
    reflexivity.
  - intros H. apply db_delete_done in H. destruct H as [_ ->].
    intros c Hc. apply db_distinct_categories_In in Hc.
    apply db_distinct_categories_In.
    destruct Hc as [[r [Hr E]] Hsp]. split; [|assumption].
    exists r. split; [|assumption].
    simpl in Hr. apply filter_In in Hr. tauto.
Qed.

Lemma categories_after_run_and_delete_witness :
  (exists s',
     db_update_run store_scenario 3 (txt "Running") 1700000000 = Done s'
     /\ db_distinct_categories s' = [txt "Animation"; txt "Rigging"]
     /\ db_distinct_categories s' = db_distinct_categories store_scenario)
  /\ (exists s',
        db_delete store_scenario 3 = Done s'
        /\ db_distinct_categories s' = [txt "Animation"]
        /\ forall c, In c (db_distinct_categories s') ->
                     In c (db_distinct_categories store_scenario)).
Proof.
  split.
  - eexists. split; [reflexivity|]. split; [reflexivity|].
    exact (proj1 (categories_after_run_and_delete store_scenario _ 3
                    (txt "Running") 1700000000) eq_refl).
  - eexists. split; [reflexivity|]. split; [reflexivity|].
    exact (proj2 (categories_after_run_and_delete store_scenario _ 3
                    (txt "Running") 1700000000) eq_refl).
Defined.

(** * Properties of the window *)

(** ** The category box and the search box *)

(** X10: whichever item of the category box is current, the table shows
    either everything the search text selects (the item All, and a category
    that is ["__all__"] up to case) or exactly the records of that
    category among them; and with an empty search box a category of the box
    never shows an empty table. *)
Theorem category_box_selection (s : store) (search_edit label d : text) :
  In (label, d) (refresh_categories s) ->
  (py_lower d = ALL_SENTINEL ->
   refresh s search_edit (Some d) = refresh s search_edit None)
  /\ (py_lower d <> ALL_SENTINEL ->
      label = d
      /\ (forall r, In r (refresh s search_edit (Some d)) <->
                    In r (refresh s search_edit None) /\ category r = d)
      /\ refresh s [] (Some d) <> []).
Proof.
  intros Hin. split.
  - intros Hd. unfold refresh, current_category_filter, db_fetch_all.
    apply text_eqb_true in Hd. rewrite Hd.
    change (text_eqb (py_lower ALL_SENTINEL) ALL_SENTINEL) with true.
    simpl negb. rewrite !andb_false_r. reflexivity.
  - intros Hd. destruct Hin as [E | Hin].
    { injection E as _ <-. exfalso. now apply Hd. }
    apply in_map_iff in Hin. destruct Hin as [c [E Hc]].
    injection E as E1 E2. subst c. subst d.
    apply db_distinct_categories_In in Hc.
    destruct Hc as [[r0 [Hr0 Hcat]] Hsp].
    assert (Hne : truthy label = true).
    { destruct label; [|reflexivity]. exfalso. now apply Hsp. }
    assert (Hpass : forall r, category_passes (Some label) r
                              = text_eqb (category r) label).
    { intros r. unfold category_passes. rewrite Hne.
      apply text_eqb_false in Hd. now rewrite Hd. }
    split; [reflexivity|]. split.
    + intros r. unfold refresh, current_category_filter.
      rewrite !db_fetch_all_In, Hpass, text_eqb_true.
      change (category_passes (Some ALL_SENTINEL) r) with true. tauto.
    + change (refresh s [] (Some label))
        with (db_fetch_all s None (Some label)).
      assert (H : In r0 (db_fetch_all s None (Some label))).
      { apply db_fetch_all_In. split; [assumption|]. split; [reflexivity|].
        rewrite Hpass. now apply text_eqb_true. }
      intros E. rewrite E in H. exact H.
Qed.

Lemma category_box_selection_witness :
  In (txt "Rigging", txt "Rigging") (refresh_categories store_scenario)
  /\ py_lower (txt "Rigging") <> ALL_SENTINEL
  /\ (forall r, In r (refresh store_scenario (txt " rig ") (Some (txt "Rigging")))
                <-> In r (refresh store_scenario (txt " rig ") None)
                    /\ category r = txt "Rigging")
  /\ refresh store_scenario [] (Some (txt "Rigging")) <> [].
Proof.
  assert (Hin : In (txt "Rigging", txt "Rigging")
                   (refresh_categories store_scenario)).
  { right. right. left. reflexivity. }
  assert (Hd : py_lower (txt "Rigging") <> ALL_SENTINEL) by discriminate.
  destruct (proj2 (category_box_selection store_scenario (txt " rig ")
                     (txt "Rigging") (txt "Rigging") Hin) Hd)
    as [_ [H1 H2]].
  split; [exact Hin|]. split; [exact Hd|]. split; [exact H1|exact H2].
Defined.

(** X11: the table depends on the search text only through what
    [str.strip()] leaves of it, and a search text that is empty or all
    whitespace filters nothing by name. *)
Theorem refresh_search_text (s : store) (search_edit : text)
  (data : option text) :
  refresh s (py_strip search_edit) data = refresh s search_edit data
  /\ (blank search_edit ->
      refresh s search_edit data =
      db_fetch_all s None (Some (current_category_filter data))).
Proof.
  split.
  - unfold refresh, py_strip. now rewrite strip_by_idem.
  - intros Hb. unfold refresh. apply strip_by_nil in Hb.
    unfold py_strip. now rewrite Hb.
Qed.

(** ** The dialog's category list *)

(** X12: the category list of the editor dialog holds the existing
    categories and the record's own stripped category when that is not
    empty, nothing else, and has no duplicate when the existing categories
    have none. *)
Theorem category_items_spec (existing : list text) (m : option mod_dict) :
  (forall c, In c (category_items existing m) <->
             In c existing
             \/ (c = current_category m /\ current_category m <> []))
  /\ (NoDup existing -> NoDup (category_items existing m)).
Proof.
  unfold category_items. fold (current_category m).
  destruct (truthy (current_category m)) eqn:Ht; simpl.
  - assert (Hne : current_category m <> []).
    { intros E. rewrite E in Ht. discriminate. }
    destruct (existsb (text_eqb (current_category m)) existing) eqn:Hex;
      simpl.
    + apply existsb_exists in Hex. destruct Hex as [c' [Hc' E]].
      apply text_eqb_true in E. subst c'. split; [|auto].
      intros c. split; [auto|]. intros [H | [-> _]]; assumption.
    + split.
      * intros c. simpl. split.
        -- intros [<- | H]; auto.
        -- intros [H | [-> _]]; auto.
      * intros Hnd. constructor; [|assumption].
        intros Hin.
        assert (existsb (text_eqb (current_category m)) existing = true).
        { apply existsb_exists. exists (current_category m).
          split; [assumption|apply text_eqb_refl]. }
        congruence.
  - split; [|auto]. intros c. split; [auto|].
    intros [H | [_ Hne]]; [assumption|].
    exfalso. apply Hne. now destruct (current_category m).
Qed.

(** X13: for a record of a reachable store the editor dialog offers exactly
    the categories in use: the record's own category is among them or is
    empty. *)
Theorem category_items_reachable (s : store) (r : Row) :
  reachable s -> In r (rows s) ->
  category_items (db_distinct_categories s) (Some (mod_of_row r))
  = db_distinct_categories s.
Proof.
  intros Hs Hr. unfold category_items. simpl (get _ _).
  pose proof (reachable_categories_stripped s Hs) as Hst.
  unfold categories_stripped in Hst. rewrite Forall_forall in Hst.
  rewrite (Hst r Hr).
  destruct (truthy (category r)) eqn:Ht; simpl; [|reflexivity].
  assert (Hin : In (category r) (db_distinct_categories s)).
  { apply db_distinct_categories_In. split; [now exists r|].
    intros Hsp. apply only_spaces_blank in Hsp.
    rewrite (stripped_blank_nil (category r) (Hst r Hr) Hsp) in Ht.
    discriminate. }
  assert (Hex : existsb (text_eqb (category r)) (db_distinct_categories s)
                = true).
  { apply existsb_exists. exists (category r).
    split; [assumption|apply text_eqb_refl]. }
  now rewrite Hex.
Qed.

Lemma category_items_reachable_witness :
  reachable store_scenario
  /\ In (ex_row 3 "Rig Setup" "Rigging") (rows store_scenario)
  /\ category_items (db_distinct_categories store_scenario)
       (Some (mod_of_row (ex_row 3 "Rig Setup" "Rigging")))
     = [txt "Animation"; txt "Rigging"].
Proof.
  assert (Hr : In (ex_row 3 "Rig Setup" "Rigging") (rows store_scenario)).
  { right. right. left. reflexivity. }
  split; [exact store_scenario_reachable|]. split; [exact Hr|].
  exact (category_items_reachable store_scenario
           (ex_row 3 "Rig Setup" "Rigging") store_scenario_reachable Hr).
Defined.

(** ** Add, edit, run and delete *)

(** X14: a record that the Add dialog creates is new in every respect: its
    status is ["Ready"], it was never run, its name is not empty, and none
    of its seven text fields has whitespace at either end. *)
Theorem add_mod_new_record (s s' : store) (accepted : bool)
  (entered : ModEditorDialog) :
  add_mod s accepted (opened None entered) = Done s' ->
  s' = s
  \/ exists r, rows s' = rows s ++ [r]
               /\ status r = txt "Ready" /\ last_run r = 0%Z
               /\ name r <> [] /\ all_trimmed r.
Proof.
  unfold add_mod. destruct accepted.
  2:{ intros H. injection H as <-. now left. }
  simpl (get _ _).
  destruct (py_strip (name_edit entered)) as [|c t] eqn:E; simpl (truthy _).
  - intros H. injection H as <-. now left.
  - destruct (db_insert s (get_value (opened None entered)))
      as [[s1 i]|e] eqn:Hins; [|discriminate].
    intros H. injection H as <-. right.
    apply db_insert_done in Hins. destruct Hins as (_ & _ & ->).
    exists (row_of_mod i (get_value (opened None entered))).
    split; [reflexivity|]. split; [reflexivity|]. split; [reflexivity|].
    split.
    + simpl. rewrite E. discriminate.
    + unfold all_trimmed, trimmed. simpl.
      repeat split; apply strip_by_edge_free.
Qed.

Lemma add_mod_new_record_witness :
  exists s',
    add_mod store_scenario true (opened None dialog_walk) = Done s'
    /\ rows s' = rows store_scenario ++ [row_walk]
    /\ (s' = store_scenario
        \/ exists r, rows s' = rows store_scenario ++ [r]
                     /\ status r = txt "Ready" /\ last_run r = 0%Z
                     /\ name r <> [] /\ all_trimmed r).
Proof.
  exists store_walk. split; [reflexivity|]. split; [reflexivity|].
  exact (add_mod_new_record store_scenario store_walk true dialog_walk
           eq_refl).
Defined.

Lemma Forall2_map_in (A : Type) (P : A -> A -> Prop) (g : A -> A)
  (l : list A) :
  (forall a, In a l -> P a (g a)) -> Forall2 P l (map g l).
Proof.
  induction l as [|x l IH]; simpl; intros H; constructor; auto.
Qed.

(** X15: an edit, made on a row the window holds as the table has it, keeps
    the record's id, status and last run, writes the seven entered texts
    stripped, and touches no other record; cancelling the dialog changes
    nothing.  The edit is written exactly when SQLite takes the id and the
    edited values, which it does for a row it stored and entered texts that
    are well-formed and not too long for a record; otherwise the update
    raises. *)
Theorem edit_selected_frame (s : store) (self_rows : list Row) (idx : Z)
  (row : Row) (entered : ModEditorDialog) :
  rowid_ordered s -> (0 <= idx)%Z ->
  rows_at self_rows idx = Some row -> In row (rows s) ->
  edit_selected s self_rows idx false entered = Finished s
  /\ (sqlite_value (PInt (id row)) -> storable (edited row entered) ->
      exists s',
        edit_selected s self_rows idx true entered = Finished s'
        /\ sqlite_sequence s' = sqlite_sequence s
        /\ Forall2 (edit_frame row entered) (rows s) (rows s'))
  /\ (~ (sqlite_value (PInt (id row)) /\ storable (edited row entered)) ->
      exists e,
        edit_selected s self_rows idx true entered = Failed (DbError e)).
Proof.
  intros Hs Hidx Hat Hrow. unfold edit_selected.
  destruct (Z.ltb_spec idx 0) as [Hneg | _]; [lia|].
  rewrite Hat. split; [reflexivity|]. split.
  - intros Hid Hst. fold (edited row entered) in Hst.
    rewrite (db_update_storable s (id row) _ Hid Hst).
    eexists. split; [reflexivity|].
    split; [reflexivity|]. simpl rows.
    apply Forall2_map_in. intros r Hr. unfold edit_frame.
    destruct (Z.eqb_spec (id r) (id row)) as [E | E].
    + assert (r = row) by (apply (rowid_ordered_unique (rows s)); assumption).
      subst r. simpl. repeat split; try reflexivity; try tauto;
        unfold py_strip; apply strip_by_idem.
    + repeat split; tauto.
  - intros Hno. unfold db_update. fold (edited row entered).
    destruct (bind_parameters (edited row entered ++ [PInt (id row)]))
      as [e|] eqn:Hb; [now exists e|].
    assert (Hex : existsb (fun r => (id r =? id row)%Z) (rows s) = true).
    { apply existsb_exists. exists row. split; [assumption|].
      apply Z.eqb_refl. }
    rewrite Hex. simpl.
    destruct (too_big (edited row entered)) eqn:Ht; [now exists DataError|].
    exfalso. apply Hno. apply bind_parameters_spec in Hb.
    apply Forall_app in Hb. destruct Hb as [Hv Hid].
    split; [now inversion Hid|].
    split; [assumption | now apply too_big_spec].
Qed.

Lemma edit_selected_frame_witness :
  rowid_ordered store_walk
  /\ rows_at (rows store_walk) 3 = Some row_walk
  /\ In row_walk (rows store_walk)
  /\ sqlite_value (PInt (id row_walk))
  /\ storable (edited row_walk dialog_walk)
  /\ exists s',
       edit_selected store_walk (rows store_walk) 3 true dialog_walk
       = Finished s'
       /\ sqlite_sequence s' = sqlite_sequence store_walk
       /\ Forall2 (edit_frame row_walk dialog_walk)
                  (rows store_walk) (rows s').
Proof.
  assert (H1 : rowid_ordered store_walk) by (repeat constructor).
  assert (H2 : rows_at (rows store_walk) 3 = Some row_walk) by reflexivity.
  assert (H3 : In row_walk (rows store_walk)).
  { right. right. right. left. reflexivity. }
  assert (H0 : (0 <= 3)%Z) by lia.
  assert (H4 : sqlite_value (PInt (id row_walk))) by (now apply int64_spec).
  assert (H5 : storable (edited row_walk dialog_walk)).
  { apply storable_spec. split; reflexivity. }
  split; [exact H1|]. split; [exact H2|]. split; [exact H3|].
  split; [exact H4|]. split; [exact H5|].
  exact (proj1 (proj2 (edit_selected_frame store_walk (rows store_walk) 3
                         row_walk dialog_walk H1 H0 H2 H3)) H4 H5).
Defined.

Lemma set_run_frame (mod_id : Z) (st : text) (ts : Z) (r : Row) :
  run_frame mod_id st ts r
    (if (id r =? mod_id)%Z then set_run st ts r else r).
Proof.
  unfold run_frame.
  destruct (Z.eqb_spec (id r) mod_id); simpl; repeat split; tauto.
Qed.

(** X16: Run writes to the store only when the selected row has a script
    path, the path exists and the script was started; then the selected
    record, and no other, gets the status ["Running"] and the time of the
    launch.  In every other case that ends normally the store is as it
    was. *)
Theorem run_selected_marks_running (s s' : store) (self_rows : list Row)
  (idx : Z) (path_exists : text -> bool) (popen_ok : bool) (now_ts : Z) :
  run_selected s self_rows idx path_exists popen_ok now_ts = Finished s' ->
  s' = s
  \/ (popen_ok = true
      /\ exists row,
           rows_at self_rows idx = Some row
           /\ bat_path row <> []
           /\ path_exists (bat_path row) = true
           /\ sqlite_sequence s' = sqlite_sequence s
           /\ Forall2 (run_frame (id row) (txt "Running") now_ts)
                      (rows s) (rows s')).
Proof.
  unfold run_selected.
  destruct (idx <? 0)%Z; [intros H; injection H as <-; now left|].
  destruct (rows_at self_rows idx) as [row|]; [|discriminate].
  destruct (truthy (bat_path row)) eqn:Hb; simpl;
    [|intros H; injection H as <-; now left].
  destruct (path_exists (bat_path row)) eqn:Hp; simpl;
    [|intros H; injection H as <-; now left].
  destruct popen_ok; [|intros H; injection H as <-; now left].
  destruct (db_update_run s (id row) RUNNING now_ts) as [s1|e] eqn:Hrun;
    [|intros H; injection H as <-; now left].
  intros H. injection H as <-. right. split; [reflexivity|].
  apply db_update_run_done in Hrun. destruct Hrun as [_ ->].
  exists row. split; [reflexivity|]. split.
  - intros E. rewrite E in Hb. discriminate.
  - split; [assumption|]. split; [reflexivity|]. simpl.
    apply Forall2_map_r_self. intros r. apply set_run_frame.
Qed.

Lemma run_selected_marks_running_witness :
  exists s',
    run_selected store_walk (rows store_walk) 3 (fun _ => true) true
      1700000000 = Finished s'
    /\ map status (rows s') = [READY; READY; READY; txt "Running"]
    /\ map last_run (rows s') = [0; 0; 0; 1700000000]%Z
    /\ (s' = store_walk
        \/ (true = true
            /\ exists row,
                 rows_at (rows store_walk) 3 = Some row
                 /\ bat_path row <> []
                 /\ (fun _ : text => true) (bat_path row) = true
                 /\ sqlite_sequence s' = sqlite_sequence store_walk
                 /\ Forall2 (run_frame (id row) (txt "Running") 1700000000)
                            (rows store_walk) (rows s'))).
Proof.
  eexists. split; [reflexivity|]. split; [reflexivity|].
  split; [reflexivity|].
  exact (run_selected_marks_running store_walk _ (rows store_walk) 3
           (fun _ => true) true 1700000000 eq_refl).
Defined.

Lemma rowid_ordered_remove (l : list Row) (row : Row) :
  StronglySorted rowid_before l -> In row l ->
  Permutation l (row :: filter (fun r => negb (id r =? id row)%Z) l).
Proof.
  induction 1 as [|x l Hl IH Hx]; simpl; [tauto|].
  intros Hin.
  destruct (Z.eqb_spec (id x) (id row)) as [E | E]; simpl.
  - assert (x = row).
    { apply (rowid_ordered_unique (x :: l));
        [now constructor | now left | assumption | assumption]. }
    subst x. rewrite filter_id; [reflexivity|].
    rewrite Forall_forall in Hx. unfold rowid_before in Hx.
    intros r Hr. specialize (Hx r Hr).
    rewrite negb_true_iff. apply Z.eqb_neq. lia.
  - destruct Hin as [-> | Hin]; [congruence|].
    rewrite (IH Hin) at 1. apply perm_swap.
Qed.

(** X17: Delete, confirmed on a row the window holds as the table has it,
    takes exactly that record out of the table and leaves the others and
    the counter; answered with No it changes nothing.  The id of a stored
    row is a 64-bit integer; were it not, the delete would raise
    [OverflowError]. *)
Theorem delete_selected_removes_one (s : store) (self_rows : list Row)
  (idx : Z) (row : Row) :
  rowid_ordered s -> (0 <= idx)%Z ->
  rows_at self_rows idx = Some row -> In row (rows s) ->
  delete_selected s self_rows idx false = Finished s
  /\ (sqlite_value (PInt (id row)) ->
      exists s',
        delete_selected s self_rows idx true = Finished s'
        /\ Permutation (rows s) (row :: rows s')
        /\ ~ In row (rows s')
        /\ sqlite_sequence s' = sqlite_sequence s)
  /\ (~ sqlite_value (PInt (id row)) ->
      delete_selected s self_rows idx true = Failed (DbError OverflowError)).
Proof.
  intros Hs Hidx Hat Hrow. unfold delete_selected, selected_id.
  destruct (Z.ltb_spec idx 0) as [Hneg | _]; [lia|].
  rewrite Hat. split; [reflexivity|]. split.
  - intros Hid. rewrite (db_delete_value s (id row) Hid).
    eexists. split; [reflexivity|]. simpl. split; [|split; [|reflexivity]].
    + now apply rowid_ordered_remove.
    + intros Hin. apply filter_In in Hin. destruct Hin as [_ Hin].
      rewrite Z.eqb_refl in Hin. discriminate.
  - intros Hid. now rewrite (db_delete_raises s (id row) Hid).
Qed.

Lemma delete_selected_removes_one_witness :
  rowid_ordered store_walk
  /\ rows_at (rows store_walk) 3 = Some row_walk
  /\ In row_walk (rows store_walk)
  /\ sqlite_value (PInt (id row_walk))
  /\ exists s',
       delete_selected store_walk (rows store_walk) 3 true = Finished s'
       /\ Permutation (rows store_walk) (row_walk :: rows s')
       /\ ~ In row_walk (rows s')
       /\ sqlite_sequence s' = sqlite_sequence store_walk.
Proof.
  assert (H1 : rowid_ordered store_walk) by (repeat constructor).
  assert (H2 : rows_at (rows store_walk) 3 = Some row_walk) by reflexivity.
  assert (H3 : In row_walk (rows store_walk)).
  { right. right. right. left. reflexivity. }
  assert (H0 : (0 <= 3)%Z) by lia.
  assert (H4 : sqlite_value (PInt (id row_walk))) by (now apply int64_spec).
  split; [exact H1|]. split; [exact H2|]. split; [exact H3|].
  split; [exact H4|].
  exact (proj1 (proj2 (delete_selected_removes_one store_walk
                         (rows store_walk) 3 row_walk H1 H0 H2 H3)) H4).
Defined.

(** * Further properties of [db_init] *)

Lemma db_init_current_witness :
  Forall (fun c => has_exact (col_name c) (columns current_table) = true)
         newer_columns
  /\ db_init (Some current_table) = (Done tt, Some current_table).
Proof.
  assert (H : Forall (fun c => has_exact (col_name c) (columns current_table)
                               = true) newer_columns)
    by (repeat constructor).
  split; [exact H|]. exact (db_init_current current_table H).
Defined.

Lemma migrations_duplicate (l : list column) (t : table) (c : column) :
  NoDup (map col_name l) ->
  Forall (fun c0 => default_value c0 <> VNull) l ->
  In c l ->
  has_column (col_name c) (columns t) = true ->
  has_exact (col_name c) (columns t) = false ->
  exists c' t',
    In c' l
    /\ migrations l (Some t) = (Raised (DuplicateColumn (col_name c')), Some t').
Proof.
  revert t. induction l as [|c0 l IH]; intros t Hnd Hdef Hin Hcol Hex;
    [contradiction|].
  inversion Hnd as [|? ? Hc0 Hnd']; subst.
  inversion Hdef as [|? ? Hd0 Hdef']; subst.
  rewrite migrations_cons, migrate_unfold.
  destruct (has_exact (col_name c0) (columns t)) eqn:E0.
  - destruct Hin as [-> | Hin]; [congruence|].
    destruct (IH t Hnd' Hdef' Hin Hcol Hex) as (c' & t' & Hc' & E).
    exists c', t'. split; [now right | exact E].
  - unfold alter_table_add_column.
    change (existsb _ (columns t))
      with (has_column (col_name c0) (columns t)).
    destruct (has_column (col_name c0) (columns t)) eqn:E1.
    + exists c0, t. split; [now left | reflexivity].
    + destruct Hin as [-> | Hin]; [congruence|].
      assert (Hne : text_eqb (col_name c0) (col_name c) = false).
      { apply text_eqb_false. intros E. apply Hc0. rewrite E.
        now apply in_map. }
      assert (Hgo : forall v,
                 exists c' t',
                   In c' (c0 :: l)
                   /\ migrations l
                        (Some {| columns := columns t ++ [c0];
                                 records := map (fun r => r ++ [v])
                                                (records t) |})
                      = (Raised (DuplicateColumn (col_name c')), Some t')).
      { intros v.
        destruct (IH {| columns := columns t ++ [c0];
                        records := map (fun r => r ++ [v]) (records t) |}
                    Hnd' Hdef' Hin) as (c' & t' & Hc' & E).
        - simpl columns. rewrite has_column_app, Hcol. reflexivity.
        - simpl columns. rewrite has_exact_app, Hex. simpl.
          now rewrite Hne.
        - exists c', t'. split; [now right | exact E]. }
      destruct (col_notnull c0); destruct (default_value c0) eqn:Ed;
        try congruence; destruct (records t); apply Hgo.
Qed.

(** X19: on a table that has one of the four newer columns under another
    spelling of its name (as in [Category]), [db_init] raises SQLite's
    duplicate-column error: the check compares names as spelled, the
    database regardless of case. *)
Theorem db_init_duplicate_column (t : table) (c : column) :
  In c newer_columns ->
  has_column (col_name c) (columns t) = true ->
  has_exact (col_name c) (columns t) = false ->
  exists c' t',
    In c' newer_columns
    /\ db_init (Some t) = (Raised (DuplicateColumn (col_name c')), Some t').
Proof.
  intros Hin Hcol Hex. rewrite db_init_some.
  apply (migrations_duplicate newer_columns t c); try assumption.
  - repeat constructor; simpl; intuition discriminate.
  - repeat constructor; discriminate.
Qed.

Lemma db_init_duplicate_column_witness :
  In category_column newer_columns
  /\ has_column (col_name category_column) (columns table_Category) = true
  /\ has_exact (col_name category_column) (columns table_Category) = false
  /\ exists c' t',
       In c' newer_columns
       /\ db_init (Some table_Category)
          = (Raised (DuplicateColumn (col_name c')), Some t').
Proof.
  assert (H1 : In category_column newer_columns) by (right; now left).
  assert (H2 : has_column (col_name category_column)
                 (columns table_Category) = true) by reflexivity.
  assert (H3 : has_exact (col_name category_column)
                 (columns table_Category) = false) by reflexivity.
  split; [exact H1|]. split; [exact H2|]. split; [exact H3|].
  exact (db_init_duplicate_column table_Category category_column H1 H2 H3).
Defined.

Lemma extends_record_refl (l : list (list value)) :
  Forall2 extends_record l l.
Proof.
  induction l as [|r l IH]; constructor; [|assumption].
  exists []. now rewrite app_nil_r.
Qed.

Lemma extends_record_trans (l1 l2 l3 : list (list value)) :
  Forall2 extends_record l1 l2 -> Forall2 extends_record l2 l3 ->
  Forall2 extends_record l1 l3.
Proof.
  intros H. revert l3. induction H as [|a b l1 l2 [vs ->] _ IH];
    intros l3 H3; inversion H3 as [|? c ? l3' [ws ->] H3']; subst;
    constructor; [|now apply IH].
  exists (vs ++ ws). now rewrite app_assoc.
Qed.

Lemma migrate_additive (c : column) (t : table) :
  exists res t1 extra,
    migrate c (Some t) = (res, Some t1)
    /\ columns t1 = columns t ++ extra
    /\ Forall2 extends_record (records t) (records t1).
Proof.
  assert (Hsame : forall res,
             exists res' t1 extra,
               (res, Some t) = (res' : outcome unit, Some t1)
               /\ columns t1 = columns t ++ extra
               /\ Forall2 extends_record (records t) (records t1)).
  { intros res. exists res, t, []. split; [reflexivity|].
    split; [now rewrite app_nil_r | apply extends_record_refl]. }
  assert (Hadd : forall v,
             exists res' t1 extra,
               (Done tt,
                Some {| columns := columns t ++ [c];
                        records := map (fun r => r ++ [v]) (records t) |})
               = (res' : outcome unit, Some t1)
               /\ columns t1 = columns t ++ extra
               /\ Forall2 extends_record (records t) (records t1)).
  { intros v. eexists. eexists. exists [c]. split; [reflexivity|].
    split; [reflexivity|]. simpl.
    apply Forall2_map_r_self. intros r. now exists [v]. }
  rewrite migrate_unfold.
  destruct (has_exact (col_name c) (columns t)); [apply Hsame|].
  unfold alter_table_add_column.
  destruct (existsb _ (columns t)); [apply Hsame|].
  destruct (col_notnull c); destruct (default_value c);
    destruct (records t); first [apply Hadd | apply Hsame].
Qed.

Lemma migrations_additive (l : list column) (t : table) :
  exists res t' extra,
    migrations l (Some t) = (res, Some t')
    /\ columns t' = columns t ++ extra
    /\ Forall2 extends_record (records t) (records t').
Proof.
  revert t. induction l as [|c l IH]; intros t.
  - exists (Done tt), t, []. split; [reflexivity|].
    split; [now rewrite app_nil_r | apply extends_record_refl].
  - rewrite migrations_cons.
    destruct (migrate_additive c t) as (res & t1 & extra & E & Hc & Hr).
    rewrite E. destruct res as [[]|e].
    + destruct (IH t1) as (res' & t' & extra' & E' & Hc' & Hr').
      exists res', t', (extra ++ extra'). split; [exact E'|]. split.
      * rewrite Hc', Hc. now rewrite app_assoc.
      * now apply extends_record_trans with (records t1).
    + exists (Raised e), t1, extra. auto.
Qed.

(** X20: whatever table it finds and however it ends, [db_init] only adds:
    the columns afterwards are the columns before with columns appended,
    the records are the same in number and order, each with values
    appended, and every value a record held in a column is still read from
    that column. *)
Theorem db_init_additive (t : table) :
  exists res t' extra,
    db_init (Some t) = (res, Some t')
    /\ columns t' = columns t ++ extra
    /\ Forall2 (fun r r' =>
                  extends_record r r'
                  /\ forall n v, field (columns t) r n = Some v ->
                                 field (columns t') r' n = Some v)
               (records t) (records t').
Proof.
  rewrite db_init_some.
  destruct (migrations_additive newer_columns t)
    as (res & t' & extra & E & Hc & Hr).
  exists res, t', extra. split; [exact E|]. split; [exact Hc|].
  rewrite Hc. clear E Hc.
  induction Hr as [|r r' l l' [vs ->] _ IH]; constructor; [|exact IH].
  split; [now exists vs|].
  intros n v. apply field_app_l.
Qed.

(** * The row selected after a refresh *)

Lemma first_named_spec (n : text) (l : list Row) (k j : nat) :
  first_named n l k = Some j ->
  exists pre r post,
    l = pre ++ r :: post /\ j = (k + List.length pre)%nat /\ name r = n
    /\ forall r', In r' pre -> name r' <> n.
Proof.
  revert k. induction l as [|x l IH]; intros k; simpl; [discriminate|].
  destruct (text_eqb (name x) n) eqn:E.
  - intros H. injection H as <-. apply text_eqb_true in E.
    exists [], x, l. split; [reflexivity|]. split; [simpl; lia|].
    split; [assumption|]. intros r' [].
  - intros H. destruct (IH (S k) H) as (pre & r & post & -> & -> & Hn & Hpre).
    exists (x :: pre), r, post. split; [reflexivity|].
    split; [simpl; lia|]. split; [assumption|].
    intros r' [<- | Hr']; [now apply text_eqb_false | now apply Hpre].
Qed.

Lemma first_named_none (n : text) (l : list Row) (k : nat) :
  first_named n l k = None -> forall r, In r l -> name r <> n.
Proof.
  revert k. induction l as [|x l IH]; intros k; simpl; [tauto|].
  destruct (text_eqb (name x) n) eqn:E; [discriminate|].
  intros H r [<- | Hr]; [now apply text_eqb_false | now apply (IH (S k))].
Qed.

Lemma listing_name_then_id (s : store) (nf cf : option text) :
  rowid_ordered s -> StronglySorted name_then_id (db_fetch_all s nf cf).
Proof.
  intros Hs. rewrite db_fetch_all_unfold.
  eapply StronglySorted_weaken.
  2:{ apply (order_by_lex Row name_leb name_leb_total name_leb_trans
               rowid_before).
      apply StronglySorted_filter. exact Hs. }
  intros a b [Hle Hid]. unfold name_leb in *. apply text_leb_spec in Hle.
  destruct Hle as [Hlt | Heq]; [now left|].
  right. split; [assumption|].
  apply Hid. rewrite Heq. apply text_leb_spec. now right.
Qed.

(** X21: without a wanted name, and with the empty string for one, no row
    is selected, even when a listed record has the empty name; for a
    wanted name that is not empty the row selected after a refresh is the
    first of that name, which in the listing's order is the record of that
    name with the smallest id (so, after an Add, an older record of the
    same name rather than the new one), and no row is selected exactly
    when no listed record has the name. *)
Theorem reselect_oldest (s : store) (search_edit : text)
  (data : option text) (n : text) :
  rowid_ordered s ->
  reselect (refresh s search_edit data) None = None
  /\ reselect (refresh s search_edit data) (Some []) = None
  /\ (n <> [] ->
      match reselect (refresh s search_edit data) (Some n) with
      | Some k =>
          exists r,
            nth_error (refresh s search_edit data) k = Some r
            /\ name r = n
            /\ forall r', In r' (refresh s search_edit data) ->
                          name r' = n -> (id r <= id r')%Z
      | None =>
          forall r, In r (refresh s search_edit data) -> name r <> n
      end).
Proof.
  intros Hs. split; [reflexivity|]. split; [reflexivity|]. intros Hn.
  assert (Hsorted : StronglySorted name_then_id (refresh s search_edit data))
    by (apply listing_name_then_id; exact Hs).
  revert Hsorted. generalize (refresh s search_edit data) as l. intros l Hl.
  unfold reselect. destruct n as [|c n]; [congruence|]. simpl (truthy _).
  clear Hn.
  destruct (first_named (c :: n) l 0) as [k|] eqn:E.
  - destruct (first_named_spec _ _ _ _ E)
      as (pre & r & post & -> & -> & Hn & Hpre).
    exists r. split; [|split; [exact Hn|]].
    + simpl. rewrite nth_error_app2 by lia.
      now rewrite Nat.sub_diag.
    + intros r' Hr' Hn'. apply in_app_or in Hr'.
      destruct Hr' as [Hr' | [<- | Hr']]; [|lia|].
      * exfalso. now apply (Hpre r').
      * clear Hpre E. induction pre as [|x pre IH]; simpl in Hl.
        -- inversion Hl as [|? ? _ Hall]; subst.
           rewrite Forall_forall in Hall.
           destruct (Hall r' Hr') as [Hlt | [_ Hid]]; [|lia].
           rewrite Hn, Hn', text_compare_refl in Hlt. discriminate.
        -- inversion Hl; subst. now apply IH.
  - now apply (first_named_none _ _ 0).
Qed.

Lemma reselect_oldest_witness :
  rowid_ordered store_unnamed
  /\ txt "a" <> []
  /\ map name (refresh store_unnamed [] None) = [[]; txt "a"; txt "a"]
  /\ map id (refresh store_unnamed [] None) = [2; 1; 3]%Z
  /\ reselect (refresh store_unnamed [] None) (Some []) = None
  /\ reselect (refresh store_unnamed [] None) (Some (txt "a")) = Some 1%nat
  /\ match reselect (refresh store_unnamed [] None) (Some (txt "a")) with
     | Some k =>
         exists r,
           nth_error (refresh store_unnamed [] None) k = Some r
           /\ name r = txt "a"
           /\ forall r', In r' (refresh store_unnamed [] None) ->
                         name r' = txt "a" -> (id r <= id r')%Z
     | None =>
         forall r, In r (refresh store_unnamed [] None) -> name r <> txt "a"
     end.
Proof.
  assert (H : rowid_ordered store_unnamed) by (repeat constructor).
  assert (Hn : txt "a" <> []) by discriminate.
  destruct (reselect_oldest store_unnamed [] None (txt "a") H)
    as (_ & H2 & H3).
  split; [exact H|]. split; [exact Hn|]. split; [reflexivity|].
  split; [reflexivity|]. split; [exact H2|]. split; [reflexivity|].
  exact (H3 Hn).
Defined.
